(** * DNS forwarder (app/main.go): wire codec, response builder, forwarder

    A shallow embedding of the Go program.  Bytes are [Z] values in
    [0, 256) with the wrap-around of Go's unsigned arithmetic written
    out; fixed-size arrays ([12]byte, [2]byte, [4]byte) are stdpp
    vectors; Go maps are [gmap]s; a Go slice is its visible elements
    together with the spare capacity of its backing array; a Go [string]
    is the sequence of its bytes.  Functions that can return an error or
    hit a run-time panic return an [outcome]. *)

From Stdlib Require Import ZArith List Lia.
From stdpp Require Import base numbers option list vector gmap.

(** ** Go values *)

Abbreviation byte := Z.
Definition is_byte (b : Z) : Prop := (0 ≤ b < 256)%Z.
#[global] Instance is_byte_dec (b : Z) : Decision (is_byte b).
Proof. unfold is_byte. apply _. Defined.

(** Conversions [uint8(x)] / [byte(x)] and [uint16(x)]. *)
Definition uint8 (z : Z) : Z := (z `mod` 256)%Z.
Definition uint16 (z : Z) : Z := (z `mod` 65536)%Z.

(** A Go [string]: an immutable sequence of bytes; [string(b)] and
    [[]byte(s)] are the identity on the contents. *)
Abbreviation label := (list byte).

(** Run-time panics of indexing and slicing. *)
Inductive panic :=
  | IndexOutOfRange
  | SliceBoundsOutOfRange.

(** The [error] values the program builds with [fmt.Errorf]. *)
Inductive error :=
  | LabelTooLong                       (* "Max len of a label is 63." *)
  | NameTooLong                        (* "Max len of a label seq is 255." *)
  | InvalidLabelReference (b : byte)   (* "Invalid label reference: %d" *)
  | MalformedHeader                    (* "invalid DNS header" *)
  | SendFailed                         (* "Failed to send query to resolver" *)
  | ReadFailed                         (* "Failed to read response from resolver" *)
  | ParseFailed.                       (* "Failed to parse response from resolver" *)

(** What a call comes to: a value, a returned [error], a panic that
    unwinds the goroutine (nothing in the program recovers), or the
    exhaustion of the iteration budget given to a [for { }] loop. *)
Inductive outcome (A : Type) :=
  | Ok (a : A)
  | Err (e : error)
  | Panic (p : panic)
  | OutOfFuel.
Arguments Ok {A} a.
Arguments Err {A} e.
Arguments Panic {A} p.
Arguments OutOfFuel {A}.

Definition obind {A B} (m : outcome A) (k : A → outcome B) : outcome B :=
  match m with
  | Ok a => k a
  | Err e => Err e
  | Panic p => Panic p
  | OutOfFuel => OutOfFuel
  end.

#[global] Instance outcome_bind : MBind outcome := λ A B k m, obind m k.
#[global] Instance outcome_ret : MRet outcome := λ A a, Ok a.

(** A slice: [elems] are the [len] elements in view, [spare] the rest
    of the backing array up to [cap]. *)
Record slice := Slice { elems : list byte; spare : list byte }.

Definition slen (s : slice) : nat := length (elems s).
Definition scap (s : slice) : nat := length (elems s) + length (spare s).

(** [s[i]]: checked against the length. *)
Definition index (s : slice) (i : nat) : outcome byte :=
  match elems s !! i with
  | Some b => Ok b
  | None => Panic IndexOutOfRange
  end.

(** [s[lo:hi]]: checked against the capacity. *)
Definition reslice (s : slice) (lo hi : nat) : outcome (list byte) :=
  if decide (lo ≤ hi ∧ hi ≤ scap s)
  then Ok (take (hi - lo) (drop lo (elems s ++ spare s)))
  else Panic SliceBoundsOutOfRange.

(** ** encoding/binary, big endian *)

Definition Uint16 (b : vec byte 2) : Z :=
  Z.lor (b !!! 1%fin) (Z.shiftl (b !!! 0%fin) 8).

Definition PutUint16 (v : Z) : vec byte 2 :=
  [# uint8 (Z.shiftr v 8); uint8 v].

Definition PutUint32 (v : Z) : vec byte 4 :=
  [# uint8 (Z.shiftr v 24); uint8 (Z.shiftr v 16); uint8 (Z.shiftr v 8); uint8 v].

(** ** Constants *)

Definition A : Z := 1.
Definition IN : Z := 1.
Definition QUERY : Z := 0.
Definition UNIMPLEMENTED : Z := 4.

(** ** Header (RFC 1035 4.1.1) *)

Abbreviation header := (vec byte 12).

(** [new(header)] *)
Definition new_header : header := vreplicate 12 0%Z.

Definition put16 (i j : fin 12) (v : Z) (h : header) : header :=
  let b := PutUint16 v in vinsert j (b !!! 1%fin) (vinsert i (b !!! 0%fin) h).
Definition get16 (i j : fin 12) (h : header) : Z :=
  Uint16 [# h !!! i; h !!! j].

Definition setId (id : Z) (h : header) : header := put16 0 1 id h.
Definition id (h : header) : Z := get16 0 1 h.

Definition setQR (isReply : Z) (h : header) : header :=
  vinsert 2%fin (Z.lor (h !!! 2%fin) (uint8 (Z.shiftl isReply 7))) h.

Definition OPCODE (h : header) : Z :=
  Z.shiftr (Z.land (h !!! 2%fin) 0x78) 3.

Definition setAA (isAuthoritativeAnswer : Z) (h : header) : header :=
  vinsert 2%fin (Z.lor (h !!! 2%fin) (uint8 (Z.shiftl isAuthoritativeAnswer 2))) h.

Definition setTC (isTruncated : Z) (h : header) : header :=
  vinsert 2%fin (Z.lor (h !!! 2%fin) (uint8 (Z.shiftl isTruncated 1))) h.

Definition setRD (recursionDesired : Z) (h : header) : header :=
  vinsert 2%fin (Z.lor (h !!! 2%fin) recursionDesired) h.

Definition RD (h : header) : Z := Z.land (h !!! 2%fin) 0x01.

Definition setRA (recursionAvailable : Z) (h : header) : header :=
  vinsert 3%fin (Z.lor (h !!! 3%fin) (uint8 (Z.shiftl recursionAvailable 7))) h.

Definition setZ (val : Z) (h : header) : header :=
  vinsert 3%fin (Z.lor (Z.land (h !!! 3%fin) 0x8F) (Z.land val 0x70)) h.

Definition setRCODE (code : Z) (h : header) : header :=
  vinsert 3%fin (Z.lor (Z.land (h !!! 3%fin) 0xF0) (Z.land code 0x0F)) h.

Definition setQDCOUNT (count : Z) (h : header) : header := put16 4 5 count h.
Definition QDCOUNT (h : header) : Z := get16 4 5 h.
Definition setANCOUNT (count : Z) (h : header) : header := put16 6 7 count h.
Definition ANCOUNT (h : header) : Z := get16 6 7 h.

(** Readers for the fields the program only writes.  The source has no
    accessor for them; each one reads the bits its setter writes (the
    layout of RFC 1035 4.1.1), and the last two read the count fields in
    bytes 8..11, which the program only ever copies. *)
Definition QR (h : header) : Z := Z.shiftr (Z.land (h !!! 2%fin) 0x80) 7.
Definition AA (h : header) : Z := Z.shiftr (Z.land (h !!! 2%fin) 0x04) 2.
Definition TC (h : header) : Z := Z.shiftr (Z.land (h !!! 2%fin) 0x02) 1.
Definition RA (h : header) : Z := Z.shiftr (Z.land (h !!! 3%fin) 0x80) 7.
Definition Zbits (h : header) : Z := Z.shiftr (Z.land (h !!! 3%fin) 0x70) 4.
Definition RCODE (h : header) : Z := Z.land (h !!! 3%fin) 0x0F.
Definition NSCOUNT (h : header) : Z := get16 8 9 h.
Definition ARCOUNT (h : header) : Z := get16 10 11 h.

(** ** Questions, resource records, messages *)

Record question := Question {
  QNAME : list label;
  QTYPE : vec byte 2;
  QCLASS : vec byte 2
}.

Record RR := Build_RR {
  NAME : list label;
  TYPE : vec byte 2;
  CLASS : vec byte 2;
  TTL : vec byte 4;
  RDLENGTH : vec byte 2;
  RDATA : list byte
}.

(** [type answer = RR] *)
Abbreviation answer := RR.

(** The two maps of [labelCache]. *)
Record labelCache := LabelCache {
  labelMap : gmap label nat;
  positionMap : gmap nat label
}.

Record message := Message {
  m_cache : option labelCache;
  m_header : header;
  m_question : list question;
  m_answer : list RR;
  m_authority : list RR;
  m_additional : list RR
}.

(** The [len] methods of [question] and [RR]: [len] of a [[]string] is
    its number of elements. *)
Definition question_len (q : question) : nat := length (QNAME q) + 4.
Definition RR_len (rr : RR) : nat := length (NAME rr) + 10 + length (RDATA rr).

Definition questionLen (m : message) : nat :=
  foldl (λ total q, total + question_len q) 0 (m_question m).
Definition answerLen (m : message) : nat :=
  foldl (λ total a, total + RR_len a) 0 (m_answer m).

(** ** Label codec *)

Fixpoint encodeLabels_loop (labels : list label) (encodedLabelSequence : list byte)
  : outcome (list byte) :=
  match labels with
  | [] => Ok encodedLabelSequence
  | label :: rest =>
      if decide (63 < length label) then Err LabelTooLong
      else encodeLabels_loop rest
             (encodedLabelSequence ++ [uint8 (Z.of_nat (length label))] ++ label)
  end.

Definition encodeLabelSequence (labels : list label) : outcome (list byte) :=
  encodedLabelSequence ← encodeLabels_loop labels [];
  let encodedLabelSequence := encodedLabelSequence ++ [0%Z] in
  if decide (255 < length encodedLabelSequence) then Err NameTooLong
  else Ok encodedLabelSequence.

(** [extractBytes], [extractUint16], [extractUint32]: the offset behind
    [*int] goes in and comes back.  The [uint32] that [extractUint32]
    also returns is dropped by its only caller and left out. *)
Definition extractBytes (src : slice) (offset length : nat) : outcome (list byte * nat) :=
  result ← reslice src offset (offset + length);
  Ok (result, offset + length).

Definition extractUint16 (src : slice) (offset : nat) : outcome (vec byte 2 * Z * nat) :=
  b0 ← index src offset;
  b1 ← index src (offset + 1);
  let result := [# b0; b1] in
  Ok (result, Uint16 result, offset + 2).

Definition extractUint32 (src : slice) (offset : nat) : outcome (vec byte 4 * nat) :=
  b0 ← index src offset;
  b1 ← index src (offset + 1);
  b2 ← index src (offset + 2);
  b3 ← index src (offset + 3);
  Ok ([# b0; b1; b2; b3], offset + 4).

(** [allSubsequentLabels]: the [for { }] loop runs on a budget of
    iterations; [None] is a budget that ran out.  The budget given below
    is one more than the number of recorded positions. *)
Fixpoint allSubsequentLabels_loop (fuel : nat) (c : labelCache) (head : nat)
    (labels : list label) : option (list label) :=
  match fuel with
  | O => None
  | S fuel =>
      match positionMap c !! head with
      | Some label =>
          allSubsequentLabels_loop fuel c (head + (length label + 1)) (labels ++ [label])
      | None => Some labels
      end
  end.

Definition allSubsequentLabels (c : labelCache) (head : nat) : option (list label) :=
  allSubsequentLabels_loop (S (size (positionMap c))) c head [].

(** The two writes [cache.labelMap[label] = labelPosition] and
    [cache.positionMap[labelPosition] = label]. *)
Definition record (c : labelCache) (labelPosition : nat) (l : label) : labelCache :=
  {| labelMap := <[l := labelPosition]> (labelMap c);
     positionMap := <[labelPosition := l]> (positionMap c) |}.

(** [decodeLabels]: one iteration of the loop per unit of [fuel]; the
    cursor and the cache are threaded through.  The budget given below is
    one more than the length of the frame: an iteration that goes on has
    read [frame[head]] and moved [head] forward. *)
Fixpoint decodeLabels_loop (fuel : nat) (frame : slice) (head : nat) (cache : labelCache)
    (labels : list label) : outcome (list label * nat * labelCache) :=
  match fuel with
  | O => OutOfFuel
  | S fuel =>
      b ← index frame head;
      if decide (b = 0%Z) then Ok (labels, head + 1, cache)
      else if decide (b = 192%Z) then
        p ← index frame (head + 1);
        let pointer := Z.to_nat p in
        match allSubsequentLabels cache pointer with
        | None => OutOfFuel
        | Some referencedLabels =>
            if decide (length referencedLabels = 0) then Err (InvalidLabelReference p)
            else Ok (labels ++ referencedLabels, head + 2, cache)
        end
      else
        let labelLen := Z.to_nat b in
        let labelPosition := head in
        '(label, head') ← extractBytes frame (head + 1) labelLen;
        decodeLabels_loop fuel frame head' (record cache labelPosition label)
          (labels ++ [label])
  end.

Definition decodeLabels (frame : slice) (head : nat) (cache : labelCache)
  : outcome (list label * nat * labelCache) :=
  decodeLabels_loop (S (slen frame)) frame head cache [].

(** ** Message assembler *)

Definition emptyCache : labelCache := {| labelMap := ∅; positionMap := ∅ |}.

(** [copy(header.bytes[:], frame)] into a zeroed array. *)
Definition copy_header (frame : slice) : header * nat :=
  let b i := default 0%Z (elems frame !! i) in
  ([# b 0; b 1; b 2; b 3; b 4; b 5; b 6; b 7; b 8; b 9; b 10; b 11],
   min 12 (slen frame)).

Fixpoint decodeQuestions (count : nat) (frame : slice) (head : nat) (cache : labelCache)
    (questions : list question) : outcome (list question * nat * labelCache) :=
  match count with
  | O => Ok (questions, head, cache)
  | S count =>
      '(labels, head, cache) ← decodeLabels frame head cache;
      '(qtype, _, head) ← extractUint16 frame head;
      '(qclass, _, head) ← extractUint16 frame head;
      decodeQuestions count frame head cache
        (questions ++ [{| QNAME := labels; QTYPE := qtype; QCLASS := qclass |}])
  end.

Fixpoint decodeAnswers (count : nat) (frame : slice) (head : nat) (cache : labelCache)
    (answers : list RR) : outcome (list RR * nat * labelCache) :=
  match count with
  | O => Ok (answers, head, cache)
  | S count =>
      '(labels, head, cache) ← decodeLabels frame head cache;
      '(type, _, head) ← extractUint16 frame head;
      '(class, _, head) ← extractUint16 frame head;
      '(ttl, head) ← extractUint32 frame head;
      '(rdlength, rdLength, head) ← extractUint16 frame head;
      '(rdata, head) ← extractBytes frame head (Z.to_nat rdLength);
      decodeAnswers count frame head cache
        (answers ++ [{| NAME := labels; TYPE := type; CLASS := class; TTL := ttl;
                        RDLENGTH := rdlength; RDATA := rdata |}])
  end.

Definition deserialize (frame : slice) : outcome message :=
  let cache := emptyCache in
  let '(header, copied) := copy_header frame in
  if decide (copied < 12) then Err MalformedHeader
  else
    '(questions, head, cache) ←
      decodeQuestions (Z.to_nat (QDCOUNT header)) frame 12 cache [];
    '(answers, head, cache) ←
      decodeAnswers (Z.to_nat (ANCOUNT header)) frame head cache [];
    Ok {| m_cache := Some cache; m_header := header; m_question := questions;
          m_answer := answers; m_authority := []; m_additional := [] |}.

Definition question_setType (t : Z) (q : question) : question :=
  {| QNAME := QNAME q; QTYPE := PutUint16 t; QCLASS := QCLASS q |}.
Definition question_setClass (c : Z) (q : question) : question :=
  {| QNAME := QNAME q; QTYPE := QTYPE q; QCLASS := PutUint16 c |}.

(** [new(question)], [new(answer)] *)
Definition new_question : question :=
  {| QNAME := []; QTYPE := [# 0; 0]%Z; QCLASS := [# 0; 0]%Z |}.
Definition new_answer : RR :=
  {| NAME := []; TYPE := [# 0; 0]%Z; CLASS := [# 0; 0]%Z; TTL := [# 0; 0; 0; 0]%Z;
     RDLENGTH := [# 0; 0]%Z; RDATA := [] |}.

Definition setType (t : Z) (rr : RR) : RR :=
  {| NAME := NAME rr; TYPE := PutUint16 t; CLASS := CLASS rr; TTL := TTL rr;
     RDLENGTH := RDLENGTH rr; RDATA := RDATA rr |}.
Definition setClass (c : Z) (rr : RR) : RR :=
  {| NAME := NAME rr; TYPE := TYPE rr; CLASS := PutUint16 c; TTL := TTL rr;
     RDLENGTH := RDLENGTH rr; RDATA := RDATA rr |}.
Definition setTTL (ttl : Z) (rr : RR) : RR :=
  {| NAME := NAME rr; TYPE := TYPE rr; CLASS := CLASS rr; TTL := PutUint32 ttl;
     RDLENGTH := RDLENGTH rr; RDATA := RDATA rr |}.
Definition setData (data : list byte) (rr : RR) : RR :=
  {| NAME := NAME rr; TYPE := TYPE rr; CLASS := CLASS rr; TTL := TTL rr;
     RDLENGTH := PutUint16 (uint16 (Z.of_nat (length data))); RDATA := data |}.
Definition setNAME (n : list label) (rr : RR) : RR :=
  {| NAME := n; TYPE := TYPE rr; CLASS := CLASS rr; TTL := TTL rr;
     RDLENGTH := RDLENGTH rr; RDATA := RDATA rr |}.

(** The question loop of [createResponseMessage]: [i] runs from 0 up to
    the request's QDCOUNT and indexes the request's questions. *)
Fixpoint copyQuestions (count i : nat) (initial : list question) (questions : list question)
  : outcome (list question) :=
  match count with
  | O => Ok questions
  | S count =>
      match initial !! i with
      | None => Panic IndexOutOfRange
      | Some q =>
          let question :=
            question_setClass IN (question_setType A
              {| QNAME := QNAME q; QTYPE := QTYPE new_question;
                 QCLASS := QCLASS new_question |}) in
          copyQuestions count (S i) initial (questions ++ [question])
      end
  end.

Definition responseHeader (initial : header) : header :=
  let header := initial in
  let header := setQR 1 header in
  let header := setAA 0 header in
  let header := setTC 0 header in
  let header := setRA 0 header in
  let header := setZ 0 header in
  if decide (OPCODE initial = QUERY) then setRCODE QUERY header
  else setRCODE UNIMPLEMENTED header.

Definition createResponseMessage (initialMessage : message) : outcome message :=
  let header := responseHeader (m_header initialMessage) in
  questions ← copyQuestions (Z.to_nat (QDCOUNT (m_header initialMessage))) 0
                 (m_question initialMessage) [];
  let header := setQDCOUNT (uint16 (Z.of_nat (length questions))) header in
  Ok {| m_cache := None; m_header := header; m_question := questions; m_answer := [];
        m_authority := []; m_additional := [] |}.

(** [serialize]: the precomputed capacity, then the bytes. *)
Definition serialize_capacity (m : message) : nat := 12 + questionLen m + answerLen m.

Fixpoint serializeQuestions (qs : list question) (buf : list byte) : outcome (list byte) :=
  match qs with
  | [] => Ok buf
  | q :: qs =>
      encodedLabelSequence ← encodeLabelSequence (QNAME q);
      serializeQuestions qs
        (buf ++ encodedLabelSequence ++ vec_to_list (QTYPE q) ++ vec_to_list (QCLASS q))
  end.

Fixpoint serializeAnswers (rrs : list RR) (buf : list byte) : outcome (list byte) :=
  match rrs with
  | [] => Ok buf
  | a :: rrs =>
      encodedLabelSequence ← encodeLabelSequence (NAME a);
      serializeAnswers rrs
        (buf ++ encodedLabelSequence ++ vec_to_list (TYPE a) ++ vec_to_list (CLASS a)
             ++ vec_to_list (TTL a) ++ vec_to_list (RDLENGTH a) ++ RDATA a)
  end.

Definition serialize (m : message) : outcome (list byte) :=
  let buf := vec_to_list (m_header m) in
  buf ← serializeQuestions (m_question m) buf;
  serializeAnswers (m_answer m) buf.

(** ** Static answers *)

(** [netip.ParseAddr("8.8.8.8")] followed by [AsSlice]; the parse of
    this literal cannot fail. *)
Definition static_ip : list byte := [8; 8; 8; 8]%Z.

Fixpoint staticAnswers (count i : nat) (questions : list question) (answers : list RR)
  : outcome (list RR) :=
  match count with
  | O => Ok answers
  | S count =>
      match questions !! i with
      | None => Panic IndexOutOfRange
      | Some q =>
          let answer :=
            setData static_ip (setTTL 60 (setClass IN (setType A
              (setNAME (QNAME q) new_answer)))) in
          staticAnswers count (S i) questions (answers ++ [answer])
      end
  end.

Definition addStaticAnswer (m : message) : outcome message :=
  answers ← staticAnswers (Z.to_nat (QDCOUNT (m_header m))) 0 (m_question m) (m_answer m);
  Ok {| m_cache := m_cache m;
        m_header := setANCOUNT (uint16 (Z.of_nat (length answers))) (m_header m);
        m_question := m_question m; m_answer := answers;
        m_authority := m_authority m; m_additional := m_additional m |}.

(** ** The network, as the program sees it *)

(** What the [n]-th write/read pair on the connected resolver socket
    comes to. *)
Inductive exchange :=
  | WriteFails
  | ReadFails
  | Reply (datagram : list byte).

(** The resolver connection and the random source: the [n]-th exchange
    and the [n]-th draw. *)
Record upstream := Upstream {
  exchanges : nat → exchange;
  draws : nat → Z
}.

(** [rand.IntN(n)]: a value in [0, n). *)
Definition IntN (draw n : Z) : Z := (draw `mod` n)%Z.
Definition MaxUint16 : Z := 65535.

(** [ReadFromUDP(buf)] then [buf[:size]]: the datagram overwrites the
    front of [buf], whose tail stays behind the frame as spare capacity. *)
Definition readFrame (buf datagram : list byte) : slice :=
  let received := take (length buf) datagram in
  {| elems := received; spare := drop (length received) buf |}.

(** [make([]byte, 512)] *)
Definition fresh_buf : list byte := replicate 512 0%Z.

(** ** Forwarding *)

(** The one-question message built for each question. *)
Definition upstreamQuery (draw : Z) (q : question) : message :=
  let header := new_header in
  let header := setId (uint16 (IntN draw MaxUint16)) header in
  let header := setQR 0 header in
  let header := setAA 0 header in
  let header := setTC 0 header in
  let header := setRA 0 header in
  let header := setRD 1 header in
  let header := setZ 0 header in
  let header := setQDCOUNT 1 header in
  {| m_cache := None; m_header := header; m_question := [q]; m_answer := [];
     m_authority := []; m_additional := [] |}.

(** What [forwardResolve] leaves behind: its result, the datagrams it
    wrote to the resolver, and the number of loop iterations started. *)
Record forwarded := Forwarded {
  f_result : outcome (list RR);
  f_sent : list (list byte);
  f_next : nat
}.

(** The loop of [forwardResolve], from iteration [n] of the connection.
    On an error the Go function also hands back the answers gathered so
    far; its caller drops them. *)
Fixpoint forwardResolve_loop (net : upstream) (questions : list question) (n : nat)
    (answers : list RR) (sent : list (list byte)) : forwarded :=
  match questions with
  | [] => Forwarded (Ok answers) sent n
  | q :: questions =>
      let message := upstreamQuery (draws net n) q in
      match serialize message with
      | Ok serialized =>
          match exchanges net n with
          | WriteFails => Forwarded (Err SendFailed) sent (S n)
          | ReadFails => Forwarded (Err ReadFailed) (sent ++ [serialized]) (S n)
          | Reply datagram =>
              let incomingFrame := readFrame fresh_buf datagram in
              match deserialize incomingFrame with
              | Ok resolverResponse =>
                  forwardResolve_loop net questions (S n)
                    (answers ++ m_answer resolverResponse) (sent ++ [serialized])
              | Err _ => Forwarded (Err ParseFailed) (sent ++ [serialized]) (S n)
              | Panic p => Forwarded (Panic p) (sent ++ [serialized]) (S n)
              | OutOfFuel => Forwarded OutOfFuel (sent ++ [serialized]) (S n)
              end
          end
      | Err e => Forwarded (Err e) sent (S n)
      | Panic p => Forwarded (Panic p) sent (S n)
      | OutOfFuel => Forwarded OutOfFuel sent (S n)
      end
  end.

Definition forwardResolve (net : upstream) (questions : list question) (n : nat) : forwarded :=
  forwardResolve_loop net questions n [] [].

(** ** The server loop *)

(** The body of the loop in [main] up to the call of [serialize]: the
    response about to be serialized, with the traffic to the resolver. *)
Record handled := Handled {
  h_response : outcome message;
  h_sent : list (list byte);
  h_next : nat
}.

Definition buildResponse (resolverConn : option upstream) (incomingFrame : slice) (n : nat)
  : handled :=
  match deserialize incomingFrame ≫= createResponseMessage with
  | Ok response =>
      match resolverConn with
      | Some net =>
          let f := forwardResolve net (m_question response) n in
          Handled
            (answers ← f_result f;
             Ok {| m_cache := m_cache response;
                   m_header := setANCOUNT (uint16 (Z.of_nat (length answers)))
                                 (m_header response);
                   m_question := m_question response; m_answer := answers;
                   m_authority := m_authority response;
                   m_additional := m_additional response |})
            (f_sent f) (f_next f)
      | None => Handled (addStaticAnswer response) [] n
      end
  | Err e => Handled (Err e) [] n
  | Panic p => Handled (Panic p) [] n
  | OutOfFuel => Handled OutOfFuel [] n
  end.

(** One turn of the loop: the datagram sent back, or the error that is
    printed before [continue]; a panic ends the process. *)
Definition handleDatagram (resolverConn : option upstream) (incomingFrame : slice) (n : nat)
  : outcome (list byte) :=
  h_response (buildResponse resolverConn incomingFrame n) ≫= serialize.

(** The loop itself over the datagrams that arrive, with the one
    512-byte [buf] that every read reuses.  Each turn is logged as the
    reply sent or the error printed; the log ends at a panic. *)
Inductive turn :=
  | Replied (serialized : list byte)
  | Logged (e : error)
  | Crashed (p : panic)
  | Stuck.

Fixpoint serve (resolverConn : option upstream) (arrivals : list (list byte))
    (buf : list byte) (n : nat) : list turn :=
  match arrivals with
  | [] => []
  | datagram :: arrivals =>
      let incomingFrame := readFrame buf datagram in
      let buf := elems incomingFrame ++ spare incomingFrame in
      let h := buildResponse resolverConn incomingFrame n in
      match h_response h ≫= serialize with
      | Ok serialized => Replied serialized :: serve resolverConn arrivals buf (h_next h)
      | Err e => Logged e :: serve resolverConn arrivals buf (h_next h)
      | Panic p => [Crashed p]
      | OutOfFuel => [Stuck]
      end
  end.

(** ** Predicates used in the statements *)

(** Every recorded label has at least one byte. *)
Definition nonempty_labels (c : labelCache) : Prop :=
  ∀ pos l, positionMap c !! pos = Some l → l ≠ [].

(** The chain [allSubsequentLabels] follows from [head]. *)
Inductive chain (c : labelCache) : nat → list label → Prop :=
  | chain_end head :
      positionMap c !! head = None → chain c head []
  | chain_step head l ls :
      positionMap c !! head = Some l →
      chain c (head + (length l + 1)) ls →
      chain c head (l :: ls).

(** The entries at or after an offset: what a chain can still visit. *)
Definition from (head : nat) (pm : gmap nat label) : gmap nat label :=
  filter (λ kv, head ≤ kv.1) pm.

(** The wire form of a name, a question and a record, as [serialize]
    lays them out. *)
Definition wire_label (l : label) : list byte := Z.of_nat (length l) :: l.
Definition wire_name (labels : list label) : list byte :=
  flat_map wire_label labels ++ [0%Z].
Definition wire_question (q : question) : list byte :=
  wire_name (QNAME q) ++ vec_to_list (QTYPE q) ++ vec_to_list (QCLASS q).
Definition wire_RR (a : RR) : list byte :=
  wire_name (NAME a) ++ vec_to_list (TYPE a) ++ vec_to_list (CLASS a)
    ++ vec_to_list (TTL a) ++ vec_to_list (RDLENGTH a) ++ RDATA a.

(** Names within the limits of RFC 1035: labels of 1 to 63 bytes, at
    most 255 bytes on the wire. *)
Definition valid_label (l : label) : Prop := 1 ≤ length l ≤ 63.
Definition valid_name (labels : list label) : Prop :=
  Forall valid_label labels ∧ length (wire_name labels) ≤ 255.

Definition valid_RR (a : RR) : Prop :=
  valid_name (NAME a) ∧ Uint16 (RDLENGTH a) = Z.of_nat (length (RDATA a)).

(** A valid message: valid names, counts that match the sections,
    RDLENGTH fields that match the data, nothing in the two sections the
    program does not handle. *)
Definition valid_message (m : message) : Prop :=
  Forall (λ q, valid_name (QNAME q)) (m_question m)
  ∧ Forall valid_RR (m_answer m)
  ∧ QDCOUNT (m_header m) = Z.of_nat (length (m_question m))
  ∧ ANCOUNT (m_header m) = Z.of_nat (length (m_answer m))
  ∧ m_authority m = [] ∧ m_additional m = [].

(** The frame holds [rest] from offset [head] on. *)
Definition reads (frame : slice) (head : nat) (rest : list byte) : Prop :=
  ∃ pre, elems frame = pre ++ rest ∧ length pre = head.

(** Names the encoder accepts. *)
Definition encodable (labels : list label) : Prop :=
  Forall (λ l, length l ≤ 63) labels ∧ length (wire_name labels) ≤ 255.

(** Labels the decoder reads as literal labels: the length byte is
    neither the terminator nor 192. *)
Definition literal_label (l : label) : Prop := length l ≠ 0 ∧ length l ≠ 192.

(** What [decodeLabels] does at a pointer, and at a literal label. *)
Definition pointer_step (head : nat) (cache : labelCache) (labels : list label) (p : byte)
  : outcome (list label * nat * labelCache) :=
  match allSubsequentLabels cache (Z.to_nat p) with
  | None => OutOfFuel
  | Some referencedLabels =>
      if decide (length referencedLabels = 0) then Err (InvalidLabelReference p)
      else Ok (labels ++ referencedLabels, head + 2, cache)
  end.

Definition literal_step (fuel : nat) (frame : slice) (head : nat) (cache : labelCache)
    (labels : list label) (b : byte) : outcome (list label * nat * labelCache) :=
  '(label, head') ← extractBytes frame (head + 1) (Z.to_nat b);
  decodeLabels_loop fuel frame head' (record cache head label) (labels ++ [label]).

(** The byte [b] at the cursor starts a 2-byte pointer whose target is
    the byte after it. *)
Definition treated_as_pointer (b : byte) : Prop :=
  ∀ fuel frame head cache labels p,
    index frame head = Ok b →
    index frame (head + 1) = Ok p →
    decodeLabels_loop (S fuel) frame head cache labels = pointer_step head cache labels p.

(** Header counts against the sections [serialize] writes: the questions
    and the answers of the message, and no authority or additional
    record at all. *)
Definition QD_AN_match (m : message) : Prop :=
  QDCOUNT (m_header m) = Z.of_nat (length (m_question m))
  ∧ ANCOUNT (m_header m) = Z.of_nat (length (m_answer m)).
Definition NS_AR_match (m : message) : Prop :=
  NSCOUNT (m_header m) = 0%Z ∧ ARCOUNT (m_header m) = 0%Z.
Definition counts_match (m : message) : Prop := QD_AN_match m ∧ NS_AR_match m.

(** The datagram [forwardResolve] writes for a question. *)
Definition query_datagram (draw : Z) (q : question) : list byte :=
  vec_to_list (m_header (upstreamQuery draw q)) ++ wire_question q.

(** ** Sample data *)

Definition google : label := [103; 111; 111; 103; 108; 101]%Z.
Definition com : label := [99; 111; 109]%Z.

(** A query header: id 0x1234, RD set, one question. *)
Definition query_header : header := [# 0x12; 0x34; 0x01; 0; 0; 1; 0; 0; 0; 0; 0; 0]%Z.

Definition question_of (name : list label) : question :=
  {| QNAME := name; QTYPE := PutUint16 A; QCLASS := PutUint16 IN |}.

(** The query for google.com, as a client sends it. *)
Definition google_query : list byte :=
  vec_to_list query_header ++ wire_question (question_of [google; com]).

(** Twelve header bytes announcing one question, and nothing after. *)
Definition truncated_query : list byte := vec_to_list query_header.

(** A reply header announcing one answer, a root-name A record whose
    RDLENGTH says 4, and no data behind it. *)
Definition short_rdata_reply : list byte :=
  [0x12; 0x34; 0x81; 0; 0; 0; 0; 1; 0; 0; 0; 0;  0;  0; 1;  0; 1;  0; 0; 0; 60;  0; 4]%Z.

(** A query with AA, TC and RA set and Z = 7 in its header. *)
Definition flagged_query : list byte :=
  [0x12; 0x34; 0x07; 0xF0; 0; 1; 0; 0; 0; 0; 0; 0]%Z
    ++ wire_question (question_of [google; com]).

(** A query announcing one additional record (as a client using EDNS
    does), with the OPT record behind the question. *)
Definition edns_query : list byte :=
  [0x12; 0x34; 0x01; 0; 0; 1; 0; 0; 0; 0; 0; 1]%Z
    ++ wire_question (question_of [google; com])
    ++ [0;  0; 41;  16; 0;  0; 0; 0; 0;  0; 0]%Z.

(** A query for a name of one label, and the frame that carries it. *)
Definition one_label_query (l : label) : list byte :=
  vec_to_list query_header ++ wire_question (question_of [l]).

Definition long_label : label := replicate 64 97%Z.

(** A reply to the google.com query: one A record, 1.2.3.4. *)
Definition google_answer : RR :=
  {| NAME := [google; com]; TYPE := PutUint16 A; CLASS := PutUint16 IN;
     TTL := PutUint32 300; RDLENGTH := PutUint16 4; RDATA := [1; 2; 3; 4]%Z |}.
Definition google_reply : list byte :=
  [0x12; 0x34; 0x81; 0x80; 0; 1; 0; 1; 0; 0; 0; 0]%Z
    ++ wire_question (question_of [google; com]) ++ wire_RR google_answer.

(** A reply whose answer is owned by a name with a 64-byte label. *)
Definition long_label_answer : RR :=
  {| NAME := [long_label]; TYPE := PutUint16 A; CLASS := PutUint16 IN;
     TTL := PutUint32 300; RDLENGTH := PutUint16 4; RDATA := [1; 2; 3; 4]%Z |}.
Definition long_label_reply : list byte :=
  [0x12; 0x34; 0x81; 0x80; 0; 1; 0; 1; 0; 0; 0; 0]%Z
    ++ wire_question (question_of [google; com]) ++ wire_RR long_label_answer.

(** Resolvers for the examples: one that answers every query with the
    same datagram, one whose reads fail. *)
Definition replying (datagram : list byte) : upstream :=
  {| exchanges := λ _, Reply datagram; draws := λ n, Z.of_nat n |}.
Definition deaf : upstream :=
  {| exchanges := λ _, ReadFails; draws := λ n, Z.of_nat n |}.

(** One datagram goes to the resolver for each question, whatever
    happens on the way. *)
Definition one_datagram_per_question : Prop :=
  ∀ net questions n,
    length (f_sent (forwardResolve net questions n)) = length questions.

(** Every response about to be serialized has header counts that match
    its sections. *)
Definition responses_counts_match : Prop :=
  ∀ resolverConn frame n response,
    slen frame ≤ 512 →
    h_response (buildResponse resolverConn frame n) = Ok response →
    counts_match response.

(** The cache after decoding google.com at offset 12. *)
Definition google_cache : labelCache := record (record emptyCache 12 google) 19 com.

(** The google.com query followed by a second question, www and a
    pointer to offset 12. *)
Definition two_question_query : list byte :=
  [0x12; 0x34; 0x01; 0; 0; 2; 0; 0; 0; 0; 0; 0]%Z
    ++ wire_question (question_of [google; com])
    ++ [3; 119; 119; 119; 192; 12;  0; 1;  0; 1]%Z.

(** The reply to the google.com query, as a message. *)
Definition google_reply_message : message :=
  {| m_cache := None;
     m_header := [# 0x12; 0x34; 0x81; 0x80; 0; 1; 0; 1; 0; 0; 0; 0]%Z;
     m_question := [question_of [google; com]];
     m_answer := [google_answer];
     m_authority := []; m_additional := [] |}.

(** ** Further vocabulary for the statements *)

(** Recording the labels of a literal name that starts at [head]. *)
Fixpoint record_name (c : labelCache) (head : nat) (labels : list label) : labelCache :=
  match labels with
  | [] => c
  | l :: labels => record_name (record c head l) (head + 1 + length l) labels
  end.

(** Every recorded position lies before [head]. *)
Definition recorded_below (c : labelCache) (head : nat) : Prop :=
  ∀ pos l, positionMap c !! pos = Some l → pos < head.

(** [o'] is [o], unless [o] is the panic of a slice that ran past the
    capacity. *)
Definition unless_out_of_capacity {A} (o o' : outcome A) : Prop :=
  o = Panic SliceBoundsOutOfRange ∨ o' = o.

(** Labels of 1 to 255 bytes. *)
Definition sized_label (l : label) : Prop := 1 ≤ length l ≤ 255.
Definition sized_cache (c : labelCache) : Prop :=
  ∀ pos l, positionMap c !! pos = Some l → sized_label l.

(** The answer [addStaticAnswer] builds for a name. *)
Definition static_answer (name : list label) : RR :=
  {| NAME := name; TYPE := PutUint16 A; CLASS := PutUint16 IN; TTL := PutUint32 60;
     RDLENGTH := PutUint16 4; RDATA := static_ip |}.

(** * Properties *)

(** ** Bit-level facts *)

Section Bits.
Local Open Scope Z_scope.

Lemma lor_land_mask (b m : Z) : Z.lor (Z.land b m) m = m.
Proof.
  apply Z.bits_inj'; intros n _.
  rewrite Z.lor_spec, Z.land_spec.
  destruct (Z.testbit b n), (Z.testbit m n); reflexivity.
Qed.

Lemma land_lor_mask (b m : Z) : Z.land (Z.lor b m) m = m.
Proof.
  apply Z.bits_inj'; intros n _.
  rewrite Z.land_spec, Z.lor_spec.
  destruct (Z.testbit b n), (Z.testbit m n); reflexivity.
Qed.

Lemma land_land_disjoint (b m k : Z) : Z.land m k = 0 → Z.land (Z.land b m) k = 0.
Proof. intros H. rewrite <- Z.land_assoc, H. apply Z.land_0_r. Qed.

Lemma testbit_small (lo n : Z) : 0 ≤ lo < 256 → 8 ≤ n → Z.testbit lo n = false.
Proof.
  intros [H0 H1] Hn.
  destruct (Z.eq_dec lo 0) as [->|Hne]; [apply Z.bits_0|].
  apply Z.bits_above_log2; [lia|].
  apply Z.log2_lt_pow2; [lia|].
  apply Z.lt_le_trans with (2 ^ 8); [exact H1|].
  apply Z.pow_le_mono_r; lia.
Qed.

Lemma lor_shiftl8 (lo hi : Z) : 0 ≤ lo < 256 → Z.lor lo (Z.shiftl hi 8) = lo + hi * 256.
Proof.
  intros Hlo.
  assert (Hd : Z.land lo (Z.shiftl hi 8) = 0).
  { apply Z.bits_inj'; intros n Hn.
    rewrite Z.land_spec, Z.bits_0.
    destruct (Z.lt_ge_cases n 8) as [Hlt|Hge].
    - rewrite (Z.shiftl_spec_low hi 8 n Hlt). apply andb_false_r.
    - rewrite (testbit_small lo n Hlo Hge). reflexivity. }
  rewrite <- (Z.lxor_lor _ _ Hd), <- (Z.add_nocarry_lxor _ _ Hd).
  rewrite Z.shiftl_mul_pow2 by lia. reflexivity.
Qed.

Lemma uint8_range (z : Z) : is_byte (uint8 z).
Proof. unfold is_byte, uint8. apply Z.mod_pos_bound. lia. Qed.

Lemma uint8_id (z : Z) : is_byte z → uint8 z = z.
Proof. unfold is_byte, uint8. intros H. apply Z.mod_small. exact H. Qed.

(** Reading back what [PutUint16] wrote. *)
Lemma Uint16_PutUint16 (v : Z) : Uint16 (PutUint16 v) = uint16 v.
Proof.
  unfold Uint16, PutUint16, uint16.
  simpl.
  rewrite lor_shiftl8 by apply uint8_range.
  unfold uint8. rewrite Z.shiftr_div_pow2 by lia.
  change (2 ^ 8) with 256.
  replace 65536 with (256 * 256) by reflexivity.
  rewrite (Z.rem_mul_r v 256 256) by lia. lia.
Qed.

Lemma Uint16_range (b0 b1 : Z) :
  is_byte b0 → is_byte b1 → 0 ≤ Uint16 [# b0; b1] < 65536.
Proof.
  unfold is_byte, Uint16. intros H0 H1. simpl.
  rewrite lor_shiftl8 by exact H1. lia.
Qed.
End Bits.

(** ** The label position cache *)

Section Cache.
Implicit Types (c : labelCache) (pm : gmap nat label).

Lemma from_step pm head l :
  pm !! head = Some l → size (from (head + (length l + 1)) pm) < size (from head pm).
Proof.
  intros Hl. apply map_subset_size, map_subset_alt. split.
  - apply map_subseteq_spec. intros i x.
    unfold from. rewrite !map_lookup_filter_Some. simpl. intros [? ?]. split; [done|lia].
  - exists head. split.
    + unfold from. apply map_lookup_filter_None. right. intros x _. simpl. lia.
    + exists l. unfold from. apply map_lookup_filter_Some. split; [done|simpl; lia].
Qed.

Lemma from_size pm head : size (from head pm) ≤ size pm.
Proof. apply map_subseteq_size, map_filter_subseteq. Qed.

Lemma allSubsequentLabels_loop_enough fuel c head labels :
  size (from head (positionMap c)) < fuel →
  ∃ ls, allSubsequentLabels_loop fuel c head labels = Some (labels ++ ls)
        ∧ chain c head ls
        ∧ length ls ≤ size (from head (positionMap c)).
Proof.
  revert head labels. induction fuel as [|fuel IH]; intros head labels Hfuel; [lia|].
  simpl. destruct (positionMap c !! head) as [l|] eqn:Hl.
  - pose proof (from_step _ _ _ Hl) as Hstep.
    destruct (IH (head + (length l + 1)) (labels ++ [l])) as (ls & Hrun & Hchain & Hlen);
      [lia|].
    exists (l :: ls). split; [|split].
    + rewrite Hrun, <- app_assoc. reflexivity.
    + by apply chain_step.
    + simpl. lia.
  - exists []. split; [by rewrite app_nil_r|]. split; [by apply chain_end|simpl; lia].
Qed.

Lemma chain_functional c head ls1 ls2 : chain c head ls1 → chain c head ls2 → ls1 = ls2.
Proof.
  intros H1. revert ls2. induction H1 as [head Hn|head l ls Hs _ IH]; intros ls2 H2.
  - inversion H2 as [|? l' ls' Hs' Hc']; subst; [done|].
    rewrite Hn in Hs'. discriminate.
  - inversion H2 as [? Hn|? l' ls' Hs' Hc']; subst.
    + rewrite Hs in Hn. discriminate.
    + rewrite Hs in Hs'. injection Hs' as <-. f_equal. by apply IH.
Qed.

Lemma record_nonempty c pos l : nonempty_labels c → l ≠ [] → nonempty_labels (record c pos l).
Proof.
  intros Hc Hl pos' l'. unfold record. simpl.
  rewrite lookup_insert. case_decide; [congruence|apply Hc].
Qed.

Lemma emptyCache_nonempty : nonempty_labels emptyCache.
Proof. intros pos l. unfold emptyCache. simpl. by rewrite lookup_empty. Qed.
End Cache.

(** C8. [allSubsequentLabels] terminates on every cache whose recorded
    labels are non-empty (the caches decoding builds), from any offset:
    the budget it runs on is never exhausted, any larger budget gives the
    same labels, the labels returned are the chain of lookups from the
    offset, each step of which moves at least 2 bytes forward, and the
    chain is no longer than the map has entries. *)
Theorem allSubsequentLabels_terminates (c : labelCache) (head : nat) :
  nonempty_labels c →
  ∃ labels,
    allSubsequentLabels c head = Some labels
    ∧ (∀ fuel, size (positionMap c) < fuel →
         allSubsequentLabels_loop fuel c head [] = Some labels)
    ∧ chain c head labels
    ∧ length labels ≤ size (positionMap c)
    ∧ (∀ pos l, positionMap c !! pos = Some l → pos + 2 ≤ pos + (length l + 1)).
Proof.
  intros Hne.
  pose proof (from_size (positionMap c) head) as Hsz.
  destruct (allSubsequentLabels_loop_enough (S (size (positionMap c))) c head [])
    as (labels & Hrun & Hchain & Hlen); [lia|].
  exists labels. split; [exact Hrun|]. split; [|split; [exact Hchain|split; [lia|]]].
  - intros fuel Hfuel.
    destruct (allSubsequentLabels_loop_enough fuel c head []) as (ls & Hrun' & Hchain' & _);
      [lia|].
    by rewrite Hrun', (chain_functional _ _ _ _ Hchain' Hchain).
  - intros pos l Hl. specialize (Hne pos l Hl). destruct l; [done|simpl; lia].
Qed.

(** ** The response header *)

Section Header.
Local Open Scope Z_scope.

Ltac header_bytes h :=
  inv_vec h; intros; unfold responseHeader; case_decide;
  unfold setRCODE, setZ, setRA, setTC, setAA, setQR; simpl;
  change (uint8 (1 ≪ 7)) with 128; change (uint8 (0 ≪ 7)) with 0;
  change (uint8 (0 ≪ 2)) with 0; change (uint8 (0 ≪ 1)) with 0;
  rewrite ?Z.lor_0_r; try reflexivity.

(** Byte 2 of the response: the request's, with the top bit set. *)
Lemma responseHeader_byte2 (h : header) :
  responseHeader h !!! 2%fin = Z.lor (h !!! 2%fin) 128.
Proof. header_bytes h. Qed.

(** Byte 3 of the response: the request's RA bit, and the code. *)
Lemma responseHeader_byte3 (h : header) :
  responseHeader h !!! 3%fin =
  Z.lor (Z.land (h !!! 3%fin) 0x80)
        (if decide (OPCODE h = QUERY) then QUERY else UNIMPLEMENTED).
Proof.
  header_bytes h.
  - rewrite <- Z.land_assoc. reflexivity.
  - rewrite <- Z.land_assoc. reflexivity.
Qed.

Lemma responseHeader_other (h : header) (i : fin 12) :
  i ≠ 2%fin → i ≠ 3%fin → responseHeader h !!! i = h !!! i.
Proof.
  intros H2 H3. unfold responseHeader.
  cbv zeta. case_decide; unfold setRCODE, setZ, setRA, setTC, setAA, setQR;
    by rewrite !vlookup_insert_ne.
Qed.

Lemma responseHeader_QR (h : header) : QR (responseHeader h) = 1.
Proof. unfold QR. rewrite responseHeader_byte2, land_lor_mask. reflexivity. Qed.

Lemma responseHeader_RCODE (h : header) :
  RCODE (responseHeader h) = if decide (OPCODE h = QUERY) then 0 else 4.
Proof.
  unfold RCODE. rewrite responseHeader_byte3, Z.land_lor_distr_l.
  rewrite (land_land_disjoint _ 0x80 0x0F) by reflexivity.
  case_decide; reflexivity.
Qed.

Lemma responseHeader_Z (h : header) : Zbits (responseHeader h) = 0.
Proof.
  unfold Zbits. rewrite responseHeader_byte3, Z.land_lor_distr_l.
  rewrite (land_land_disjoint _ 0x80 0x70) by reflexivity.
  case_decide; reflexivity.
Qed.

(** [setAA(0)], [setTC(0)] and [setRA(0)] or a zero into the byte: the
    request's bits stay. *)
Lemma responseHeader_AA (h : header) : AA (responseHeader h) = AA h.
Proof.
  unfold AA. rewrite responseHeader_byte2, Z.land_lor_distr_l.
  change (Z.land 128 0x04) with 0. by rewrite Z.lor_0_r.
Qed.

Lemma responseHeader_TC (h : header) : TC (responseHeader h) = TC h.
Proof.
  unfold TC. rewrite responseHeader_byte2, Z.land_lor_distr_l.
  change (Z.land 128 0x02) with 0. by rewrite Z.lor_0_r.
Qed.

Lemma responseHeader_RA (h : header) : RA (responseHeader h) = RA h.
Proof.
  unfold RA. rewrite responseHeader_byte3, Z.land_lor_distr_l.
  rewrite <- Z.land_assoc. change (Z.land 0x80 0x80) with 0x80.
  case_decide; simpl; by rewrite Z.lor_0_r.
Qed.

Lemma get16_put16_same (i j : fin 12) (v : Z) (h : header) :
  i ≠ j → get16 i j (put16 i j v h) = uint16 v.
Proof.
  intros Hij. unfold get16, put16. cbv zeta.
  rewrite vlookup_insert, vlookup_insert_ne, vlookup_insert by done.
  apply Uint16_PutUint16.
Qed.

Lemma get16_put16_ne (i j i' j' : fin 12) (v : Z) (h : header) :
  i' ≠ i → i' ≠ j → j' ≠ i → j' ≠ j → get16 i' j' (put16 i j v h) = get16 i' j' h.
Proof.
  intros. unfold get16, put16. cbv zeta. by rewrite !vlookup_insert_ne.
Qed.

Lemma put16_lookup_ne (i j k : fin 12) (v : Z) (h : header) :
  k ≠ i → k ≠ j → put16 i j v h !!! k = h !!! k.
Proof. intros. unfold put16. cbv zeta. by rewrite !vlookup_insert_ne. Qed.

End Header.

(** ** Decoding: shape of a successful run *)

Lemma bind_Ok {A B} (m : outcome A) (k : A → outcome B) (b : B) :
  m ≫= k = Ok b → ∃ a, m = Ok a ∧ k a = Ok b.
Proof. destruct m; simpl; try discriminate. eauto. Qed.

Ltac bind_inv H :=
  let a := fresh "a" in
  let Ha := fresh "Ha" in
  apply bind_Ok in H; destruct H as (a & Ha & H).

Section DecodeShape.
Implicit Types (frame : slice) (head : nat) (cache : labelCache).

Lemma index_Ok frame i b : index frame i = Ok b → elems frame !! i = Some b.
Proof. unfold index. destruct (elems frame !! i); congruence. Qed.

Lemma index_lt frame i b : index frame i = Ok b → i < slen frame.
Proof. intros H%index_Ok. by apply lookup_lt_Some in H. Qed.

Lemma index_is_byte frame i b :
  Forall is_byte (elems frame) → index frame i = Ok b → is_byte b.
Proof.
  intros Hf H%index_Ok. eapply Forall_forall; [exact Hf|].
  eapply list_elem_of_lookup_2, H.
Qed.

Lemma extractUint16_Ok frame head r v head' :
  extractUint16 frame head = Ok (r, v, head') →
  head' = head + 2 ∧ head + 2 ≤ slen frame ∧ v = Uint16 r
  ∧ elems frame !! head = Some (r !!! 0%fin)
  ∧ elems frame !! (head + 1) = Some (r !!! 1%fin).
Proof.
  unfold extractUint16. intros H. bind_inv H. bind_inv H.
  injection H as <- <- <-.
  pose proof (index_lt _ _ _ Ha0). pose proof (index_Ok _ _ _ Ha). pose proof (index_Ok _ _ _ Ha0).
  repeat split; try done. lia.
Qed.

Lemma extractUint32_Ok frame head r head' :
  extractUint32 frame head = Ok (r, head') →
  head' = head + 4 ∧ head + 4 ≤ slen frame.
Proof.
  unfold extractUint32. intros H. do 4 bind_inv H.
  injection H as <- <-. pose proof (index_lt _ _ _ Ha2). split; [done|lia].
Qed.

Lemma extractBytes_Ok frame head n r head' :
  extractBytes frame head n = Ok (r, head') →
  head' = head + n ∧ head + n ≤ scap frame ∧ length r = n
  ∧ r = take n (drop head (elems frame ++ spare frame)).
Proof.
  unfold extractBytes, reslice. intros H. bind_inv H. injection H as <- <-.
  case_decide as Hb; [|discriminate]. injection Ha as <-.
  replace (head + n - head) with n by lia.
  repeat split; try done; [lia|].
  rewrite length_take, length_drop, length_app. unfold scap in Hb. lia.
Qed.

(** A run of [decodeQuestions] adds exactly [count] questions. *)
Lemma decodeQuestions_length count frame head cache qs qs' head' cache' :
  decodeQuestions count frame head cache qs = Ok (qs', head', cache') →
  length qs' = length qs + count.
Proof.
  revert head cache qs. induction count as [|count IH]; intros head cache qs H; simpl in H.
  - injection H as <- _ _. lia.
  - bind_inv H. destruct a as [[labels h1] c1]. bind_inv H. destruct a as [[qt ?] h2].
    bind_inv H. destruct a as [[qc ?] h3]. apply IH in H.
    rewrite H, length_app. simpl. lia.
Qed.

Lemma decodeAnswers_length count frame head cache rrs rrs' head' cache' :
  decodeAnswers count frame head cache rrs = Ok (rrs', head', cache') →
  length rrs' = length rrs + count.
Proof.
  revert head cache rrs. induction count as [|count IH]; intros head cache rrs H; simpl in H.
  - injection H as <- _ _. lia.
  - bind_inv H. destruct a as [[labels h1] c1]. bind_inv H. destruct a as [[ty ?] h2].
    bind_inv H. destruct a as [[cl ?] h3]. bind_inv H. destruct a as [ttl h4].
    bind_inv H. destruct a as [[rl rdl] h5]. bind_inv H. destruct a as [rd h6].
    apply IH in H. rewrite H, length_app. simpl. lia.
Qed.

(** What [deserialize] did when it returned a message. *)
Lemma deserialize_Ok frame m :
  deserialize frame = Ok m →
  12 ≤ slen frame
  ∧ m_header m = (copy_header frame).1
  ∧ m_authority m = [] ∧ m_additional m = []
  ∧ ∃ head1 cache1 head2 cache2,
      decodeQuestions (Z.to_nat (QDCOUNT (m_header m))) frame 12 emptyCache []
        = Ok (m_question m, head1, cache1)
      ∧ decodeAnswers (Z.to_nat (ANCOUNT (m_header m))) frame head1 cache1 []
        = Ok (m_answer m, head2, cache2)
      ∧ m_cache m = Some cache2.
Proof.
  unfold deserialize. destruct (copy_header frame) as [hdr copied] eqn:Hc.
  assert (copied = min 12 (slen frame)) as -> by (unfold copy_header in Hc; congruence).
  intros H. case_decide as Hlen; [discriminate|].
  bind_inv H. destruct a as [[qs h1] c1]. bind_inv H. destruct a as [[rrs h2] c2].
  injection H as <-. simpl. split; [lia|]. do 3 (split; [done|]).
  by exists h1, c1, h2, c2.
Qed.

Lemma deserialize_counts frame m :
  deserialize frame = Ok m →
  length (m_question m) = Z.to_nat (QDCOUNT (m_header m))
  ∧ length (m_answer m) = Z.to_nat (ANCOUNT (m_header m)).
Proof.
  intros (_ & _ & _ & _ & h1 & c1 & h2 & c2 & Hq & Ha & _)%deserialize_Ok.
  apply decodeQuestions_length in Hq. apply decodeAnswers_length in Ha. simpl in *. lia.
Qed.

Lemma copy_header_is_byte frame :
  Forall is_byte (elems frame) → Forall is_byte (vec_to_list (copy_header frame).1).
Proof.
  intros Hf. unfold copy_header. simpl.
  assert (Hb : ∀ i, is_byte (default 0%Z (elems frame !! i))).
  { intros i. destruct (elems frame !! i) as [b|] eqn:Hi; simpl.
    - eapply Forall_forall; [exact Hf|]. eapply list_elem_of_lookup_2, Hi.
    - unfold is_byte. lia. }
  repeat (apply Forall_cons; split; [apply Hb|]). apply Forall_nil_2.
Qed.

Lemma get16_range (i j : fin 12) (h : header) :
  Forall is_byte (vec_to_list h) → (0 ≤ get16 i j h < 65536)%Z.
Proof.
  intros Hh. unfold get16.
  apply Uint16_range; by apply Forall_vlookup_1.
Qed.

Lemma copyQuestions_Ok count i initial questions :
  i + count ≤ length initial →
  ∃ qs, copyQuestions count i initial questions = Ok (questions ++ qs)
        ∧ length qs = count
        ∧ QNAME <$> qs = QNAME <$> take count (drop i initial)
        ∧ Forall (λ q, QTYPE q = PutUint16 A ∧ QCLASS q = PutUint16 IN) qs.
Proof.
  revert i questions.
  induction count as [|count IH]; intros i questions Hlen; cbn [copyQuestions].
  - exists []. rewrite app_nil_r. by repeat split.
  - destruct (initial !! i) as [q|] eqn:Hq; [|apply lookup_ge_None in Hq; lia].
    destruct (IH (S i) (questions ++
      [question_setClass IN (question_setType A
         {| QNAME := QNAME q; QTYPE := QTYPE new_question;
            QCLASS := QCLASS new_question |})])) as (qs & Hrun & Hl & Hn & Hty); [lia|].
    eexists (_ :: qs). split; [|split; [|split]].
    + rewrite Hrun, <- app_assoc. reflexivity.
    + simpl. by rewrite Hl.
    + rewrite (drop_S _ _ _ Hq). rewrite firstn_cons, !fmap_cons, Hn. reflexivity.
    + apply Forall_cons. split; [by split|done].
Qed.
End DecodeShape.

(** C3. For a request that [deserialize] returned, [createResponseMessage]
    returns a response with QR = 1 and the request's QDCOUNT; its RCODE is
    0 when the request's OPCODE is QUERY and 4 for every other OPCODE,
    whatever RCODE bits the request carried. *)
Theorem createResponseMessage_header (frame : slice) (request : message) :
  Forall is_byte (elems frame) →
  deserialize frame = Ok request →
  ∃ response,
    createResponseMessage request = Ok response
    ∧ (OPCODE (m_header request) = QUERY →
         QR (m_header response) = 1%Z
         ∧ RCODE (m_header response) = 0%Z
         ∧ QDCOUNT (m_header response) = QDCOUNT (m_header request))
    ∧ (OPCODE (m_header request) ≠ QUERY → RCODE (m_header response) = 4%Z).
Proof.
  intros Hbytes Hdec.
  destruct (deserialize_counts _ _ Hdec) as [Hq _].
  destruct (deserialize_Ok _ _ Hdec) as (_ & Hhdr & _).
  assert (Hrange : (0 ≤ QDCOUNT (m_header request) < 65536)%Z).
  { rewrite Hhdr. apply get16_range, copy_header_is_byte, Hbytes. }
  destruct (copyQuestions_Ok (Z.to_nat (QDCOUNT (m_header request))) 0
              (m_question request) []) as (qs & Hrun & Hlen & _); [lia|].
  unfold createResponseMessage. rewrite Hrun. simpl. eexists. split; [reflexivity|].
  simpl. unfold RCODE, QR, QDCOUNT, setQDCOUNT.
  rewrite !put16_lookup_ne by done. rewrite get16_put16_same by done.
  fold (QR (responseHeader (m_header request))).
  fold (RCODE (responseHeader (m_header request))).
  rewrite responseHeader_QR, responseHeader_RCODE.
  split.
  - intros Hop. rewrite decide_True by done. split; [done|]. split; [done|].
    rewrite Hlen, Z2Nat.id by lia. unfold uint16.
    rewrite Z.mod_mod by lia. apply Z.mod_small. exact Hrange.
  - intros Hop. by rewrite decide_False.
Qed.

(** ** Encoding *)

Section Encode.
Lemma encodeLabels_loop_Ok labels acc :
  Forall (λ l, length l ≤ 63) labels →
  encodeLabels_loop labels acc = Ok (acc ++ flat_map wire_label labels).
Proof.
  revert acc. induction labels as [|l labels IH]; intros acc Hv; simpl.
  - by rewrite app_nil_r.
  - apply Forall_cons in Hv as [Hl Hv]. rewrite decide_False by lia.
    rewrite (IH _ Hv). unfold uint8. rewrite Z.mod_small by lia.
    by rewrite <- !app_assoc.
Qed.

Lemma encodeLabels_loop_inv labels acc r :
  encodeLabels_loop labels acc = Ok r → Forall (λ l, length l ≤ 63) labels.
Proof.
  revert acc. induction labels as [|l labels IH]; intros acc H; simpl in H.
  - apply Forall_nil_2.
  - case_decide as Hl; [discriminate|]. apply Forall_cons. split; [lia|by eapply IH].
Qed.

Lemma encodeLabelSequence_encodable labels :
  encodable labels → encodeLabelSequence labels = Ok (wire_name labels).
Proof.
  intros [Hv Hlen]. unfold encodeLabelSequence.
  rewrite (encodeLabels_loop_Ok _ _ Hv).
  simpl. fold (wire_name labels). by rewrite decide_False by lia.
Qed.

Lemma encodeLabelSequence_inv labels enc :
  encodeLabelSequence labels = Ok enc → enc = wire_name labels ∧ encodable labels.
Proof.
  unfold encodeLabelSequence. intros H. bind_inv H.
  pose proof (encodeLabels_loop_inv _ _ _ Ha) as Hv.
  rewrite (encodeLabels_loop_Ok _ _ Hv) in Ha. injection Ha as <-.
  simpl in H. fold (wire_name labels) in H.
  case_decide as Hlen; [discriminate|]. injection H as <-.
  split; [done|]. split; [done|lia].
Qed.

Lemma valid_name_encodable labels : valid_name labels → encodable labels.
Proof.
  intros [Hv Hlen]. split; [|done].
  eapply Forall_impl; [exact Hv|]. unfold valid_label. intros; lia.
Qed.

Lemma encodeLabelSequence_Ok labels :
  valid_name labels → encodeLabelSequence labels = Ok (wire_name labels).
Proof. intros H. by apply encodeLabelSequence_encodable, valid_name_encodable. Qed.

(** The first label of more than 63 bytes stops the encoder. *)
Lemma encodeLabels_loop_too_long labels acc :
  Exists (λ l, 63 < length l) labels → encodeLabels_loop labels acc = Err LabelTooLong.
Proof.
  revert acc. induction labels as [|l labels IH]; intros acc Hex; simpl.
  - by apply Exists_nil in Hex.
  - case_decide as Hl; [done|]. apply Exists_cons in Hex as [?|Hex]; [lia|]. by apply IH.
Qed.

Lemma serializeQuestions_Ok qs buf :
  Forall (λ q, valid_name (QNAME q)) qs →
  serializeQuestions qs buf = Ok (buf ++ flat_map wire_question qs).
Proof.
  revert buf. induction qs as [|q qs IH]; intros buf Hv; simpl.
  - by rewrite app_nil_r.
  - apply Forall_cons in Hv as [Hq Hv]. rewrite (encodeLabelSequence_Ok _ Hq). simpl.
    rewrite (IH _ Hv). unfold wire_question. by rewrite <- !app_assoc.
Qed.

Lemma serializeAnswers_Ok rrs buf :
  Forall (λ a, valid_name (NAME a)) rrs →
  serializeAnswers rrs buf = Ok (buf ++ flat_map wire_RR rrs).
Proof.
  revert buf. induction rrs as [|a rrs IH]; intros buf Hv; simpl.
  - by rewrite app_nil_r.
  - apply Forall_cons in Hv as [Ha Hv]. rewrite (encodeLabelSequence_Ok _ Ha). simpl.
    rewrite (IH _ Hv). unfold wire_RR. by rewrite <- !app_assoc.
Qed.

Lemma serializeQuestions_inv qs buf bytes :
  serializeQuestions qs buf = Ok bytes →
  bytes = buf ++ flat_map wire_question qs ∧ Forall (λ q, encodable (QNAME q)) qs.
Proof.
  revert buf. induction qs as [|q qs IH]; intros buf H; simpl in H.
  - injection H as <-. by rewrite app_nil_r.
  - bind_inv H. apply encodeLabelSequence_inv in Ha as [-> Hq].
    apply IH in H as [-> Hqs]. split; [|by apply Forall_cons].
    simpl. unfold wire_question. by rewrite <- !app_assoc.
Qed.

Lemma serializeAnswers_inv rrs buf bytes :
  serializeAnswers rrs buf = Ok bytes →
  bytes = buf ++ flat_map wire_RR rrs ∧ Forall (λ a, encodable (NAME a)) rrs.
Proof.
  revert buf. induction rrs as [|a rrs IH]; intros buf H; simpl in H.
  - injection H as <-. by rewrite app_nil_r.
  - bind_inv H. apply encodeLabelSequence_inv in Ha as [-> Hq].
    apply IH in H as [-> Hqs]. split; [|by apply Forall_cons].
    simpl. unfold wire_RR. by rewrite <- !app_assoc.
Qed.

(** What [serialize] returns, when it returns bytes: the header, the
    questions, the answers, and nothing else. *)
Lemma serialize_layout m bytes :
  serialize m = Ok bytes →
  bytes = vec_to_list (m_header m) ++ flat_map wire_question (m_question m)
            ++ flat_map wire_RR (m_answer m).
Proof.
  unfold serialize. intros H. bind_inv H.
  apply serializeQuestions_inv in Ha as [-> _].
  apply serializeAnswers_inv in H as [-> _]. by rewrite <- app_assoc.
Qed.

Lemma serialize_valid m :
  Forall (λ q, valid_name (QNAME q)) (m_question m) →
  Forall (λ a, valid_name (NAME a)) (m_answer m) →
  serialize m = Ok (vec_to_list (m_header m) ++ flat_map wire_question (m_question m)
                      ++ flat_map wire_RR (m_answer m)).
Proof.
  intros Hq Ha. unfold serialize.
  rewrite (serializeQuestions_Ok _ _ Hq). simpl.
  rewrite (serializeAnswers_Ok _ _ Ha). by rewrite <- app_assoc.
Qed.

(** The encoder and [serialize] have no loop that could fail to end and
    index nothing: they return bytes or an error. *)
Lemma encodeLabels_loop_returns labels acc :
  (∃ enc, encodeLabels_loop labels acc = Ok enc)
  ∨ encodeLabels_loop labels acc = Err LabelTooLong.
Proof.
  revert acc. induction labels as [|l labels IH]; intros acc; simpl; [eauto|].
  case_decide; [by right|apply IH].
Qed.

Lemma encodeLabelSequence_returns labels :
  (∃ enc, encodeLabelSequence labels = Ok enc)
  ∨ (∃ e, encodeLabelSequence labels = Err e).
Proof.
  unfold encodeLabelSequence.
  destruct (encodeLabels_loop_returns labels []) as [[enc ->]| ->]; simpl; [|eauto].
  case_decide; eauto.
Qed.

Lemma serializeQuestions_returns qs buf :
  (∃ bytes, serializeQuestions qs buf = Ok bytes) ∨ (∃ e, serializeQuestions qs buf = Err e).
Proof.
  revert buf. induction qs as [|q qs IH]; intros buf; simpl; [eauto|].
  destruct (encodeLabelSequence_returns (QNAME q)) as [[enc ->]|[e ->]]; simpl; eauto.
Qed.

Lemma serializeAnswers_returns rrs buf :
  (∃ bytes, serializeAnswers rrs buf = Ok bytes) ∨ (∃ e, serializeAnswers rrs buf = Err e).
Proof.
  revert buf. induction rrs as [|a rrs IH]; intros buf; simpl; [eauto|].
  destruct (encodeLabelSequence_returns (NAME a)) as [[enc ->]|[e ->]]; simpl; eauto.
Qed.

Lemma serialize_returns m :
  (∃ bytes, serialize m = Ok bytes) ∨ (∃ e, serialize m = Err e).
Proof.
  unfold serialize.
  destruct (serializeQuestions_returns (m_question m) (vec_to_list (m_header m)))
    as [[bytes ->]|[e ->]]; simpl; [|eauto].
  apply serializeAnswers_returns.
Qed.
End Encode.

(** ** Decoding what the encoder wrote *)

Section Roundtrip.
Implicit Types (frame : slice) (head : nat) (cache : labelCache) (rest : list byte).

Lemma reads_app frame head x rest :
  reads frame head (x ++ rest) → reads frame (head + length x) rest.
Proof.
  intros (pre & He & Hl). exists (pre ++ x). split.
  - by rewrite <- app_assoc.
  - rewrite length_app. lia.
Qed.

Lemma reads_cons frame head b rest :
  reads frame head (b :: rest) → reads frame (head + 1) rest.
Proof. intros H. by apply (reads_app frame head [b] rest). Qed.

Lemma reads_index frame head b rest :
  reads frame head (b :: rest) → index frame head = Ok b.
Proof.
  intros (pre & He & <-). unfold index. rewrite He.
  by rewrite lookup_app_r, Nat.sub_diag by lia.
Qed.

Lemma reads_extractBytes frame head x rest :
  reads frame head (x ++ rest) →
  extractBytes frame head (length x) = Ok (x, head + length x).
Proof.
  intros (pre & He & <-). unfold extractBytes, reslice, scap.
  rewrite decide_True.
  - simpl. do 2 f_equal. replace (length pre + length x - length pre) with (length x) by lia.
    rewrite He, <- !app_assoc, drop_app_length. by rewrite take_app_length.
  - rewrite He, !length_app. lia.
Qed.

Lemma reads_extractUint16 frame head (v : vec byte 2) rest :
  reads frame head (vec_to_list v ++ rest) →
  extractUint16 frame head = Ok (v, Uint16 v, head + 2).
Proof.
  inv_vec v. intros b0 b1 H. simpl in H. unfold extractUint16.
  rewrite (reads_index _ _ _ _ H). simpl.
  apply reads_cons in H. by rewrite (reads_index _ _ _ _ H).
Qed.

Lemma reads_extractUint32 frame head (v : vec byte 4) rest :
  reads frame head (vec_to_list v ++ rest) →
  extractUint32 frame head = Ok (v, head + 4).
Proof.
  inv_vec v. intros b0 b1 b2 b3 H. simpl in H. unfold extractUint32.
  rewrite (reads_index _ _ _ _ H). simpl.
  apply reads_cons in H. rewrite (reads_index _ _ _ _ H). simpl.
  apply reads_cons in H. replace (head + 1 + 1) with (head + 2) in H by lia.
  rewrite (reads_index _ _ _ _ H). simpl.
  apply reads_cons in H. replace (head + 2 + 1) with (head + 3) in H by lia.
  by rewrite (reads_index _ _ _ _ H).
Qed.

Lemma valid_label_literal l : valid_label l → literal_label l.
Proof. unfold valid_label, literal_label. lia. Qed.

Lemma valid_name_literal labels : valid_name labels → Forall literal_label labels.
Proof. intros [Hv _]. eapply Forall_impl; [exact Hv|]. apply valid_label_literal. Qed.

(** Literal labels followed by the zero byte decode to themselves; the
    cache changes, no pointer is followed. *)
Lemma decodeLabels_loop_wire fuel frame head cache labels acc rest :
  Forall literal_label labels →
  length labels < fuel →
  reads frame head (flat_map wire_label labels ++ 0%Z :: rest) →
  ∃ cache',
    decodeLabels_loop fuel frame head cache acc
    = Ok (acc ++ labels, head + length (flat_map wire_label labels) + 1, cache').
Proof.
  revert fuel head cache acc.
  induction labels as [|l labels IH]; intros fuel head cache acc Hv Hfuel Hr;
    (destruct fuel as [|fuel]; [simpl in Hfuel; lia|]); cbn [decodeLabels_loop].
  - simpl in Hr. rewrite (reads_index _ _ _ _ Hr). simpl.
    exists cache. rewrite app_nil_r. do 3 f_equal. lia.
  - apply Forall_cons in Hv as [[Hl1 Hl2] Hv]. simpl in Hr.
    rewrite (reads_index _ _ _ _ Hr). simpl.
    rewrite decide_False by lia. rewrite decide_False by lia.
    apply reads_cons in Hr. rewrite <- app_assoc in Hr.
    rewrite Nat2Z.id, (reads_extractBytes _ _ _ _ Hr). simpl.
    apply reads_app in Hr.
    destruct (IH fuel (head + 1 + length l) (record cache head l) (acc ++ [l]) Hv)
      as (cache' & Hrun); [simpl in Hfuel; lia|exact Hr|].
    exists cache'. rewrite Hrun, <- app_assoc. simpl.
    rewrite length_app. simpl. do 3 f_equal. lia.
Qed.

Lemma wire_label_length labels : length labels ≤ length (flat_map wire_label labels).
Proof.
  induction labels as [|l labels IH]; simpl; [lia|]. rewrite length_app. lia.
Qed.

Lemma reads_length frame head rest : reads frame head rest → head + length rest = slen frame.
Proof. intros (pre & He & <-). unfold slen. rewrite He, length_app. lia. Qed.

Lemma decodeLabels_wire frame head cache labels rest :
  Forall literal_label labels →
  reads frame head (wire_name labels ++ rest) →
  ∃ cache',
    decodeLabels frame head cache = Ok (labels, head + length (wire_name labels), cache').
Proof.
  intros Hv Hr. unfold wire_name in Hr. rewrite <- app_assoc in Hr. simpl in Hr.
  pose proof (reads_length _ _ _ Hr) as Hlen. rewrite length_app in Hlen.
  pose proof (wire_label_length labels).
  destruct (decodeLabels_loop_wire (S (slen frame)) frame head cache labels [] rest Hv)
    as (cache' & Hrun); [lia|exact Hr|].
  exists cache'. unfold decodeLabels. rewrite Hrun. unfold wire_name.
  rewrite length_app. simpl. do 3 f_equal. lia.
Qed.

Lemma decodeQuestions_wire frame head cache qs acc rest :
  Forall (λ q, Forall literal_label (QNAME q)) qs →
  reads frame head (flat_map wire_question qs ++ rest) →
  ∃ cache',
    decodeQuestions (length qs) frame head cache acc
    = Ok (acc ++ qs, head + length (flat_map wire_question qs), cache').
Proof.
  revert head cache acc. induction qs as [|q qs IH]; intros head cache acc Hv Hr.
  - exists cache. simpl. rewrite app_nil_r. do 3 f_equal. lia.
  - apply Forall_cons in Hv as [Hq Hv]. destruct q as [name qtype qclass].
    simpl in Hq. cbn [length decodeQuestions].
    simpl in Hr. unfold wire_question in Hr. simpl in Hr. rewrite <- !app_assoc in Hr.
    destruct (decodeLabels_wire _ _ cache _ _ Hq Hr) as (c1 & ->). simpl.
    apply reads_app in Hr. rewrite (reads_extractUint16 _ _ _ _ Hr). simpl.
    apply reads_app in Hr. rewrite length_vec_to_list in Hr.
    rewrite (reads_extractUint16 _ _ _ _ Hr). simpl.
    apply reads_app in Hr. rewrite length_vec_to_list in Hr.
    destruct (IH _ c1 (acc ++ [Question name qtype qclass]) Hv Hr) as (cache' & ->).
    exists cache'. rewrite <- app_assoc. simpl. unfold wire_question. simpl.
    rewrite !length_app, !length_vec_to_list. do 3 f_equal. lia.
Qed.

Lemma decodeAnswers_wire frame head cache rrs acc rest :
  Forall (λ a, Forall literal_label (NAME a)
               ∧ Uint16 (RDLENGTH a) = Z.of_nat (length (RDATA a))) rrs →
  reads frame head (flat_map wire_RR rrs ++ rest) →
  ∃ head' cache',
    decodeAnswers (length rrs) frame head cache acc = Ok (acc ++ rrs, head', cache').
Proof.
  revert head cache acc. induction rrs as [|a rrs IH]; intros head cache acc Hv Hr.
  - exists head, cache. simpl. by rewrite app_nil_r.
  - apply Forall_cons in Hv as [[Hn Hrd] Hv].
    destruct a as [name type class ttl rdlength rdata].
    simpl in Hn, Hrd. cbn [length decodeAnswers].
    simpl in Hr. unfold wire_RR in Hr. simpl in Hr. rewrite <- !app_assoc in Hr.
    destruct (decodeLabels_wire _ _ cache _ _ Hn Hr) as (c1 & ->). simpl.
    apply reads_app in Hr. rewrite (reads_extractUint16 _ _ _ _ Hr). simpl.
    apply reads_app in Hr. rewrite length_vec_to_list in Hr.
    rewrite (reads_extractUint16 _ _ _ _ Hr). simpl.
    apply reads_app in Hr. rewrite length_vec_to_list in Hr.
    rewrite (reads_extractUint32 _ _ _ _ Hr). simpl.
    apply reads_app in Hr. rewrite length_vec_to_list in Hr.
    rewrite (reads_extractUint16 _ _ _ _ Hr). simpl.
    apply reads_app in Hr. rewrite length_vec_to_list in Hr.
    rewrite Hrd, Nat2Z.id, (reads_extractBytes _ _ _ _ Hr). simpl.
    apply reads_app in Hr.
    destruct (IH _ c1 (acc ++ [Build_RR name type class ttl rdlength rdata]) Hv Hr)
      as (head' & cache' & ->).
    exists head', cache'. by rewrite <- app_assoc.
Qed.

Lemma copy_header_wire (h : header) rest sp :
  copy_header (Slice (vec_to_list h ++ rest) sp) = (h, 12).
Proof.
  inv_vec h. intros. unfold copy_header, slen. simpl. reflexivity.
Qed.
End Roundtrip.

(** C2. For every valid message, [serialize] returns bytes, and
    [deserialize] on those bytes (whatever spare capacity the slice has)
    returns a message with the same header bytes, the same questions and
    the same answers. *)
Theorem deserialize_serialize (m : message) (sp : list byte) :
  valid_message m →
  ∃ bytes m',
    serialize m = Ok bytes
    ∧ deserialize (Slice bytes sp) = Ok m'
    ∧ m_header m' = m_header m
    ∧ m_question m' = m_question m
    ∧ m_answer m' = m_answer m.
Proof.
  intros (Hq & Ha & Hqd & Han & _ & _).
  assert (Han' : Forall (λ a, valid_name (NAME a)) (m_answer m)).
  { eapply Forall_impl; [exact Ha|]. by intros a [? _]. }
  eexists. rewrite (serialize_valid _ Hq Han').
  set (frame := Slice _ sp).
  assert (Hr : reads frame 12 (flat_map wire_question (m_question m)
                                 ++ flat_map wire_RR (m_answer m) ++ [])).
  { exists (vec_to_list (m_header m)). split; [|apply length_vec_to_list].
    unfold frame. simpl. by rewrite app_nil_r. }
  assert (Hq' : Forall (λ q, Forall literal_label (QNAME q)) (m_question m)).
  { eapply Forall_impl; [exact Hq|]. intros q. apply valid_name_literal. }
  assert (Ha' : Forall (λ a, Forall literal_label (NAME a)
                  ∧ Uint16 (RDLENGTH a) = Z.of_nat (length (RDATA a))) (m_answer m)).
  { eapply Forall_impl; [exact Ha|]. intros a [Hn Hrd]. split; [|done].
    by apply valid_name_literal. }
  destruct (decodeQuestions_wire frame 12 emptyCache _ [] _ Hq' Hr) as (c1 & Hdq).
  apply reads_app in Hr.
  destruct (decodeAnswers_wire frame _ c1 _ [] _ Ha' Hr) as (h2 & c2 & Hda).
  eexists. split; [reflexivity|].
  unfold deserialize. subst frame. rewrite copy_header_wire.
  rewrite decide_False by lia.
  rewrite Hqd, Nat2Z.id, Hdq. cbn [mbind outcome_bind obind].
  rewrite Han, Nat2Z.id, Hda. by repeat split.
Qed.

(** ** Decoding: budgets, cache invariant, bytes consumed *)

Section DecodeFacts.
Implicit Types (frame : slice) (head : nat) (cache : labelCache).

Lemma allSubsequentLabels_Some cache head : is_Some (allSubsequentLabels cache head).
Proof.
  pose proof (from_size (positionMap cache) head).
  destruct (allSubsequentLabels_loop_enough (S (size (positionMap cache))) cache head [])
    as (ls & Hrun & _); [lia|].
  by exists ls.
Qed.

(** The budget of [decodeLabels] is never the reason it stops: every
    iteration that goes on has read a byte inside the frame and moved
    the cursor forward. *)
Lemma decodeLabels_loop_fuel fuel frame head cache labels :
  slen frame - head < fuel →
  decodeLabels_loop fuel frame head cache labels ≠ OutOfFuel.
Proof.
  revert head cache labels.
  induction fuel as [|fuel IH]; intros head cache labels Hfuel; [lia|].
  cbn [decodeLabels_loop].
  destruct (index frame head) as [b| | |] eqn:Hb; try done;
    [|unfold index in Hb; destruct (elems frame !! head); done].
  pose proof (index_lt _ _ _ Hb) as Hlt.
  cbn [mbind outcome_bind obind].
  case_decide; [done|]. case_decide.
  - destruct (index frame (head + 1)) as [p| | |] eqn:Hp; try done;
      [|unfold index in Hp; destruct (elems frame !! (head + 1)); done].
    cbn [mbind outcome_bind obind].
    destruct (allSubsequentLabels_Some cache (Z.to_nat p)) as [ls ->].
    by case_decide.
  - destruct (extractBytes frame (head + 1) (Z.to_nat b)) as [[l h']| | |] eqn:He; try done.
    + apply extractBytes_Ok in He as (-> & _). cbn [mbind outcome_bind obind].
      apply IH. lia.
    + unfold extractBytes, reslice in He. by case_decide.
Qed.

Lemma decodeLabels_total frame head cache : decodeLabels frame head cache ≠ OutOfFuel.
Proof. apply decodeLabels_loop_fuel. lia. Qed.








(** Decoding records non-empty labels only. *)
Lemma decodeLabels_loop_nonempty fuel frame head cache labels ls head' cache' :
  Forall is_byte (elems frame) →
  nonempty_labels cache →
  decodeLabels_loop fuel frame head cache labels = Ok (ls, head', cache') →
  nonempty_labels cache'.
Proof.
  intros Hbytes. revert head cache labels.
  induction fuel as [|fuel IH]; intros head cache labels Hc H; [done|].
  cbn [decodeLabels_loop] in H. bind_inv H.
  pose proof (index_is_byte _ _ _ Hbytes Ha) as [Hb0 Hb1].
  case_decide as Hz; [by injection H as _ _ <-|].
  case_decide as Hp.
  - bind_inv H. destruct (allSubsequentLabels cache (Z.to_nat a0)); [|done].
    case_decide; [done|]. by injection H as _ _ <-.
  - bind_inv H. destruct a0 as [l h1].
    apply extractBytes_Ok in Ha0 as (-> & _ & Hlen & _).
    eapply IH; [|exact H]. apply record_nonempty; [done|].
    intros ->. simpl in Hlen. lia.
Qed.

Lemma decodeQuestions_nonempty count frame head cache qs qs' head' cache' :
  Forall is_byte (elems frame) →
  nonempty_labels cache →
  decodeQuestions count frame head cache qs = Ok (qs', head', cache') →
  nonempty_labels cache'.
Proof.
  intros Hbytes. revert head cache qs.
  induction count as [|count IH]; intros head cache qs Hc H; cbn [decodeQuestions] in H.
  - by injection H as _ _ <-.
  - bind_inv H. destruct a as [[ls h1] c1]. bind_inv H. destruct a as [[qt ?] h2].
    bind_inv H. destruct a as [[qc ?] h3].
    eapply IH; [|exact H]. eapply decodeLabels_loop_nonempty; [exact Hbytes|exact Hc|exact Ha].
Qed.

Lemma decodeAnswers_nonempty count frame head cache rrs rrs' head' cache' :
  Forall is_byte (elems frame) →
  nonempty_labels cache →
  decodeAnswers count frame head cache rrs = Ok (rrs', head', cache') →
  nonempty_labels cache'.
Proof.
  intros Hbytes. revert head cache rrs.
  induction count as [|count IH]; intros head cache rrs Hc H; cbn [decodeAnswers] in H.
  - by injection H as _ _ <-.
  - bind_inv H. destruct a as [[ls h1] c1]. bind_inv H. destruct a as [[ty ?] h2].
    bind_inv H. destruct a as [[cl ?] h3]. bind_inv H. destruct a as [ttl h4].
    bind_inv H. destruct a as [[rl rdl] h5]. bind_inv H. destruct a as [rd h6].
    eapply IH; [|exact H]. eapply decodeLabels_loop_nonempty; [exact Hbytes|exact Hc|exact Ha].
Qed.

(** The cache a decoded message carries holds non-empty labels only. *)
Lemma deserialize_cache_nonempty frame m :
  Forall is_byte (elems frame) →
  deserialize frame = Ok m →
  ∃ cache, m_cache m = Some cache ∧ nonempty_labels cache.
Proof.
  intros Hbytes (_ & _ & _ & _ & h1 & c1 & h2 & c2 & Hq & Ha & Hc)%deserialize_Ok.
  exists c2. split; [done|].
  eapply decodeAnswers_nonempty; [exact Hbytes| |exact Ha].
  eapply decodeQuestions_nonempty; [exact Hbytes|apply emptyCache_nonempty|exact Hq].
Qed.

(** A name takes at least one byte of the frame and ends inside it. *)
Lemma decodeLabels_loop_consumed fuel frame head cache labels ls head' cache' :
  decodeLabels_loop fuel frame head cache labels = Ok (ls, head', cache') →
  head + 1 ≤ head' ≤ slen frame.
Proof.
  revert head cache labels.
  induction fuel as [|fuel IH]; intros head cache labels H; [done|].
  cbn [decodeLabels_loop] in H. bind_inv H.
  pose proof (index_lt _ _ _ Ha) as Hlt.
  case_decide as Hz; [injection H as _ <- _; lia|].
  case_decide as Hp.
  - bind_inv H. pose proof (index_lt _ _ _ Ha0).
    destruct (allSubsequentLabels cache (Z.to_nat a0)); [|done].
    case_decide; [done|]. injection H as _ <- _. lia.
  - bind_inv H. destruct a0 as [l h1].
    apply extractBytes_Ok in Ha0 as (-> & _). apply IH in H. lia.
Qed.

(** A question takes at least 5 bytes and ends inside the frame. *)
Lemma decodeQuestions_consumed count frame head cache qs qs' head' cache' :
  decodeQuestions count frame head cache qs = Ok (qs', head', cache') →
  (count = 0 ∧ head' = head) ∨ head + 5 * count ≤ head' ≤ slen frame.
Proof.
  revert head cache qs.
  induction count as [|count IH]; intros head cache qs H; cbn [decodeQuestions] in H.
  - injection H as _ <- _. by left.
  - bind_inv H. destruct a as [[ls h1] c1]. bind_inv H. destruct a as [[qt ?] h2].
    bind_inv H. destruct a as [[qc ?] h3].
    apply decodeLabels_loop_consumed in Ha.
    apply extractUint16_Ok in Ha0 as (-> & ? & _).
    apply extractUint16_Ok in Ha1 as (-> & ? & _).
    apply IH in H. lia.
Qed.

(** A record takes at least 11 bytes inside the frame. *)
Lemma decodeAnswers_consumed count frame head cache rrs rrs' head' cache' :
  decodeAnswers count frame head cache rrs = Ok (rrs', head', cache') →
  count = 0 ∨ head + 11 * count ≤ slen frame.
Proof.
  revert head cache rrs.
  induction count as [|count IH]; intros head cache rrs H; cbn [decodeAnswers] in H.
  - by left.
  - bind_inv H. destruct a as [[ls h1] c1]. bind_inv H. destruct a as [[ty ?] h2].
    bind_inv H. destruct a as [[cl ?] h3]. bind_inv H. destruct a as [ttl h4].
    bind_inv H. destruct a as [[rl rdl] h5]. bind_inv H. destruct a as [rd h6].
    apply decodeLabels_loop_consumed in Ha.
    apply extractUint16_Ok in Ha0 as (-> & ? & _).
    apply extractUint16_Ok in Ha1 as (-> & ? & _).
    apply extractUint32_Ok in Ha2 as (-> & ?).
    apply extractUint16_Ok in Ha3 as (-> & ? & _).
    apply extractBytes_Ok in Ha4 as (-> & _).
    apply IH in H. lia.
Qed.

(** The sections of a decoded message are bounded by the frame. *)
Lemma deserialize_sizes frame m :
  deserialize frame = Ok m →
  5 * length (m_question m) ≤ slen frame ∧ 11 * length (m_answer m) ≤ slen frame.
Proof.
  intros H. destruct (deserialize_counts _ _ H) as [Hnq Hna].
  destruct (deserialize_Ok _ _ H) as (_ & _ & _ & _ & h1 & c1 & h2 & c2 & Hq & Ha & _).
  apply decodeQuestions_consumed in Hq. apply decodeAnswers_consumed in Ha. lia.
Qed.
End DecodeFacts.

(** ** Frames past whose end the decoder reads *)

(** C1 (the code departs from it). A well-formed 12-byte datagram whose
    header announces one question makes [deserialize] panic at
    [frame[12]] instead of returning an error, and the loop of [main]
    ends there: the datagram that arrives next is never served.  A record
    whose RDLENGTH runs past the end of the datagram is no error either:
    [extractBytes] slices up to the capacity of the buffer and returns
    what lies behind the datagram, and panics when the capacity is
    exceeded too. *)
Theorem deserialize_truncated_panics :
  Forall is_byte truncated_query
  ∧ deserialize (Slice truncated_query []) = Panic IndexOutOfRange
  ∧ deserialize (readFrame fresh_buf truncated_query) = Panic IndexOutOfRange
  ∧ serve None [truncated_query; google_query] fresh_buf 0 = [Crashed IndexOutOfRange]
  ∧ (∃ m, deserialize (Slice short_rdata_reply [9; 9; 9; 9; 9]%Z) = Ok m
          ∧ RDATA <$> m_answer m = [[9; 9; 9; 9]%Z])
  ∧ deserialize (Slice short_rdata_reply []) = Panic SliceBoundsOutOfRange.
Proof.
  split.
  { repeat (apply Forall_cons; split; [unfold is_byte; lia|]). apply Forall_nil_2. }
  split; [vm_compute; reflexivity|].
  split; [vm_compute; reflexivity|].
  split; [vm_compute; reflexivity|].
  split; [|vm_compute; reflexivity].
  eexists. split; [vm_compute; reflexivity|]. reflexivity.
Qed.

(** A frame shorter than the header is the one malformed input that is
    answered with an error. *)
Lemma deserialize_short frame : slen frame < 12 → deserialize frame = Err MalformedHeader.
Proof.
  intros H. unfold deserialize, copy_header. cbv zeta.
  by rewrite decide_True by lia.
Qed.

(** ** The flags of a response *)

(** C4 (the code departs from it). A query whose header has AA, TC and RA
    set gets a response with AA = 1, TC = 1 and RA = 1: [setAA(0)],
    [setTC(0)] and [setRA(0)] or a zero into the byte and clear nothing.
    Only Z is forced to zero. *)
Theorem createResponseMessage_keeps_flags :
  ∃ request response,
    deserialize (Slice flagged_query []) = Ok request
    ∧ createResponseMessage request = Ok response
    ∧ AA (m_header request) = 1%Z ∧ AA (m_header response) = 1%Z
    ∧ TC (m_header request) = 1%Z ∧ TC (m_header response) = 1%Z
    ∧ RA (m_header request) = 1%Z ∧ RA (m_header response) = 1%Z
    ∧ Zbits (m_header request) = 7%Z ∧ Zbits (m_header response) = 0%Z.
Proof.
  eexists. eexists. split; [vm_compute; reflexivity|].
  split; [vm_compute; reflexivity|]. by repeat split.
Qed.

(** On every header: AA, TC and RA are the request's, Z is zero. *)
Lemma createResponseMessage_flags request response :
  createResponseMessage request = Ok response →
  AA (m_header response) = AA (m_header request)
  ∧ TC (m_header response) = TC (m_header request)
  ∧ RA (m_header response) = RA (m_header request)
  ∧ Zbits (m_header response) = 0%Z.
Proof.
  unfold createResponseMessage. intros H. bind_inv H. injection H as <-. simpl.
  unfold AA, TC, RA, Zbits, setQDCOUNT. rewrite !put16_lookup_ne by done.
  fold (AA (responseHeader (m_header request))). fold (TC (responseHeader (m_header request))).
  fold (RA (responseHeader (m_header request))).
  fold (Zbits (responseHeader (m_header request))).
  rewrite responseHeader_AA, responseHeader_TC, responseHeader_RA, responseHeader_Z.
  done.
Qed.

(** QR and RCODE of whatever response [createResponseMessage] returns,
    decoded request or not. *)
Lemma createResponseMessage_QR_RCODE request response :
  createResponseMessage request = Ok response →
  QR (m_header response) = 1%Z
  ∧ RCODE (m_header response)
    = (if decide (OPCODE (m_header request) = QUERY) then 0 else 4)%Z.
Proof.
  unfold createResponseMessage. intros H. bind_inv H. injection H as <-. simpl.
  unfold QR, RCODE, setQDCOUNT. rewrite !put16_lookup_ne by done.
  fold (QR (responseHeader (m_header request))).
  fold (RCODE (responseHeader (m_header request))).
  by rewrite responseHeader_QR, responseHeader_RCODE.
Qed.

(** ** The length methods *)

Lemma wire_name_length labels : length labels < length (wire_name labels).
Proof.
  unfold wire_name. rewrite length_app. pose proof (wire_label_length labels). simpl. lia.
Qed.

(** [len] counts the labels of the name, not its bytes: it is below the
    encoded length for every question and every record. *)
Lemma question_len_short q : question_len q < length (wire_question q).
Proof.
  unfold question_len, wire_question. rewrite !length_app, !length_vec_to_list.
  pose proof (wire_name_length (QNAME q)). lia.
Qed.

Lemma RR_len_short a : RR_len a < length (wire_RR a).
Proof.
  unfold RR_len, wire_RR. rewrite !length_app, !length_vec_to_list.
  pose proof (wire_name_length (NAME a)). lia.
Qed.

(** C7 (the code departs from it). For the question google.com A IN,
    [len] returns 6 (two labels plus 4) while the question takes 16 bytes
    on the wire; for its answer record [len] returns 16 against 26 bytes;
    and [serialize] sizes the buffer of the response at 34 bytes and
    produces 54. *)
Theorem question_len_counts_labels :
  question_len (question_of [google; com]) = 6
  ∧ encodeLabelSequence [google; com] ≫= (λ enc, Ok (length enc + 4)) = Ok 16
  ∧ length (wire_question (question_of [google; com])) = 16
  ∧ RR_len google_answer = 16
  ∧ length (wire_RR google_answer) = 26
  ∧ ∃ response bytes,
      h_response (buildResponse None (Slice google_query []) 0) = Ok response
      ∧ serialize response = Ok bytes
      ∧ serialize_capacity response = 34
      ∧ length bytes = 54.
Proof.
  do 5 (split; [vm_compute; reflexivity|]).
  eexists. eexists. split; [vm_compute; reflexivity|].
  split; [vm_compute; reflexivity|]. split; reflexivity.
Qed.

(** ** Pointers and literal labels *)

Lemma decodeLabels_loop_pointer fuel frame head cache labels p :
  index frame head = Ok 192%Z →
  index frame (head + 1) = Ok p →
  decodeLabels_loop (S fuel) frame head cache labels = pointer_step head cache labels p.
Proof.
  intros Hb Hp. cbn [decodeLabels_loop]. rewrite Hb. cbn [mbind outcome_bind obind].
  rewrite decide_False by done. rewrite decide_True by done.
  rewrite Hp. reflexivity.
Qed.

Lemma decodeLabels_loop_literal fuel frame head cache labels b :
  index frame head = Ok b →
  b ≠ 0%Z → b ≠ 192%Z →
  decodeLabels_loop (S fuel) frame head cache labels
  = literal_step fuel frame head cache labels b.
Proof.
  intros Hb H0 H192. cbn [decodeLabels_loop]. rewrite Hb. cbn [mbind outcome_bind obind].
  by rewrite !decide_False by done.
Qed.

(** C6, as the code has it.  Only the byte 192 at the cursor starts a
    2-byte pointer whose target is the second byte; each of the bytes
    193 to 255 is the length of a literal label, which is read, recorded
    in the cache and followed by the rest of the name. *)
Theorem decodeLabels_pointer_is_192 fuel frame head cache labels b :
  index frame head = Ok b →
  (b = 192%Z → ∀ p, index frame (head + 1) = Ok p →
     decodeLabels_loop (S fuel) frame head cache labels = pointer_step head cache labels p)
  ∧ ((192 < b ≤ 255)%Z →
     decodeLabels_loop (S fuel) frame head cache labels
     = literal_step fuel frame head cache labels b).
Proof.
  intros Hb. split.
  - intros -> p Hp. by apply decodeLabels_loop_pointer.
  - intros Hr. apply decodeLabels_loop_literal; [done|lia|lia].
Qed.

(** C6 as stated fails: the byte 193 in front of 193 bytes and a zero is
    decoded as one label of 193 bytes, where a pointer to offset 97 would
    be an invalid reference. *)
Lemma byte_193_is_a_label_length :
  ¬ (∀ b, (192 ≤ b ≤ 255)%Z → treated_as_pointer b).
Proof.
  intros H.
  specialize (H 193%Z ltac:(lia) 1 (Slice (193%Z :: replicate 193 97%Z ++ [0%Z]) []) 0
                emptyCache [] 97%Z eq_refl eq_refl).
  vm_compute in H. discriminate H.
Qed.

(** ** Names the decoder accepts and the encoder rejects *)

Lemma one_label_query_decodes (l : label) (sp : list byte) :
  literal_label l →
  ∃ m, deserialize (Slice (one_label_query l) sp) = Ok m
       ∧ m_header m = query_header
       ∧ m_question m = [question_of [l]]
       ∧ m_answer m = [].
Proof.
  intros Hl. set (frame := Slice (one_label_query l) sp).
  assert (Hr : reads frame 12 (flat_map wire_question [question_of [l]] ++ [])).
  { exists (vec_to_list query_header). split; [|reflexivity].
    unfold frame, one_label_query. cbn [elems flat_map]. by rewrite !app_nil_r. }
  destruct (decodeQuestions_wire frame 12 emptyCache [question_of [l]] [] [])
    as (c1 & Hdq); [|exact Hr|].
  { apply Forall_cons. split; [|apply Forall_nil_2]. simpl.
    apply Forall_cons. split; [exact Hl|apply Forall_nil_2]. }
  eexists. split.
  - unfold deserialize. unfold frame at 1, one_label_query. rewrite copy_header_wire.
    rewrite decide_False by lia.
    change (Z.to_nat (QDCOUNT query_header)) with (length [question_of [l]]).
    change (Z.to_nat (ANCOUNT query_header)) with 0.
    fold (one_label_query l). fold frame. rewrite Hdq. reflexivity.
  - by repeat split.
Qed.

Lemma serialize_long_label m l :
  m_question m = [question_of [l]] → 63 < length l → serialize m = Err LabelTooLong.
Proof.
  intros Hq Hl. unfold serialize. rewrite Hq. simpl.
  unfold encodeLabelSequence. simpl. by rewrite decide_True by lia.
Qed.

(** Every label length from 64 to 191 is read back by the decoder and
    refused by the encoder. *)
Lemma long_label_decodes_not_encodes (l : label) (sp : list byte) :
  64 ≤ length l ≤ 191 →
  ∃ m, deserialize (Slice (one_label_query l) sp) = Ok m
       ∧ m_question m = [question_of [l]]
       ∧ serialize m = Err LabelTooLong.
Proof.
  intros Hl.
  destruct (one_label_query_decodes l sp) as (m & Hd & _ & Hq & _).
  { unfold literal_label. lia. }
  exists m. split; [done|]. split; [done|]. apply (serialize_long_label m l Hq). lia.
Qed.

Lemma long_label_length : length long_label = 64.
Proof. reflexivity. Qed.

(** C10. There is a frame of bytes that [deserialize] turns into a
    message with a question whose name has a label of more than 63
    bytes, and [serialize] on that message fails with the error for a
    label that is too long; the same holds for every label of 64 to 191
    bytes; and a reply of the resolver with such a name in its answer
    makes the response to an ordinary query fail to serialize. *)
Theorem decoder_accepts_label_encoder_rejects :
  (∃ frame m q l,
     Forall is_byte (elems frame)
     ∧ deserialize frame = Ok m
     ∧ q ∈ m_question m ∧ l ∈ QNAME q ∧ 63 < length l
     ∧ serialize m = Err LabelTooLong)
  ∧ (∀ (l : label) sp, 64 ≤ length l ≤ 191 →
       ∃ m, deserialize (Slice (one_label_query l) sp) = Ok m
            ∧ m_question m = [question_of [l]]
            ∧ serialize m = Err LabelTooLong)
  ∧ (∃ reply, deserialize (readFrame fresh_buf long_label_reply) = Ok reply
              ∧ NAME <$> m_answer reply = [[long_label]])
  ∧ handleDatagram (Some (replying long_label_reply)) (readFrame fresh_buf google_query) 0
    = Err LabelTooLong.
Proof.
  split; [|split; [|split]].
  - destruct (long_label_decodes_not_encodes long_label []) as (m & Hd & Hq & Hs).
    { rewrite long_label_length. lia. }
    exists (Slice (one_label_query long_label) []), m, (question_of [long_label]), long_label.
    split.
    { apply Forall_forall. intros b Hb. apply list_elem_of_In in Hb.
      vm_compute in Hb. unfold is_byte.
      repeat (destruct Hb as [<-|Hb]; [lia|]). destruct Hb. }
    split; [done|]. rewrite Hq. split; [apply list_elem_of_here|].
    split; [apply list_elem_of_here|]. split; [rewrite long_label_length; lia|done].
  - intros l sp Hl. by apply long_label_decodes_not_encodes.
  - eexists. split; [vm_compute; reflexivity|]. reflexivity.
  - vm_compute. reflexivity.
Qed.

(** ** Forwarding *)

Section Forward.
Implicit Types (net : upstream) (q : question) (n : nat).

(** The header of each query: one question, a query, recursion desired,
    and every other count zero, whatever the draw. *)
Lemma upstreamQuery_header draw q :
  QDCOUNT (m_header (upstreamQuery draw q)) = 1%Z
  ∧ QR (m_header (upstreamQuery draw q)) = 0%Z
  ∧ RD (m_header (upstreamQuery draw q)) = 1%Z
  ∧ ANCOUNT (m_header (upstreamQuery draw q)) = 0%Z
  ∧ NSCOUNT (m_header (upstreamQuery draw q)) = 0%Z
  ∧ ARCOUNT (m_header (upstreamQuery draw q)) = 0%Z.
Proof. by repeat split. Qed.

Lemma upstreamQuery_serialize draw q :
  encodable (QNAME q) → serialize (upstreamQuery draw q) = Ok (query_datagram draw q).
Proof.
  intros Hq. unfold serialize, query_datagram.
  cbn [m_question m_answer upstreamQuery serializeQuestions serializeAnswers].
  rewrite (encodeLabelSequence_encodable _ Hq).
  cbn [mbind outcome_bind obind]. reflexivity.
Qed.

(** When every name encodes and every exchange brings back a reply that
    decodes, the loop goes through all the questions. *)
Lemma forwardResolve_loop_Ok net questions n answers sent (replies : list message) :
  Forall (λ q, encodable (QNAME q)) questions →
  length replies = length questions →
  (∀ i r, replies !! i = Some r →
     ∃ d, exchanges net (n + i) = Reply d ∧ deserialize (readFrame fresh_buf d) = Ok r) →
  forwardResolve_loop net questions n answers sent
  = Forwarded (Ok (answers ++ concat (m_answer <$> replies)))
      (sent ++ imap (λ i q, query_datagram (draws net (n + i)) q) questions)
      (n + length questions).
Proof.
  revert n answers sent replies.
  induction questions as [|q questions IH]; intros n answers sent replies Henc Hlen Hex.
  - destruct replies; [|done]. simpl. rewrite !app_nil_r. f_equal. lia.
  - destruct replies as [|r replies]; [done|].
    apply Forall_cons in Henc as [Hq Henc].
    cbn [forwardResolve_loop]. rewrite (upstreamQuery_serialize _ _ Hq).
    destruct (Hex 0 r eq_refl) as (d & Hd & Hr). rewrite Nat.add_0_r in Hd.
    rewrite Hd, Hr.
    rewrite (IH (S n) _ _ replies Henc).
    + f_equal.
      * rewrite fmap_cons. simpl. by rewrite <- app_assoc.
      * rewrite imap_cons, <- app_assoc. simpl. rewrite Nat.add_0_r. do 2 f_equal.
        apply imap_ext. intros i x _. simpl. do 2 f_equal. lia.
      * simpl. lia.
    + simpl in Hlen. lia.
    + intros i r' Hi. destruct (Hex (S i) r' Hi) as (d' & Hd' & Hr').
      exists d'. split; [|done]. rewrite <- Hd'. f_equal. lia.
Qed.

(** The answers gathered are bounded by the replies read into 512-byte
    buffers: at most 46 records each. *)
Lemma readFrame_slen buf datagram : slen (readFrame buf datagram) ≤ length buf.
Proof. unfold slen, readFrame. simpl. rewrite length_take. lia. Qed.

Lemma forwardResolve_loop_answers net questions n answers sent answers' :
  f_result (forwardResolve_loop net questions n answers sent) = Ok answers' →
  length answers' ≤ length answers + 46 * length questions.
Proof.
  revert n answers sent.
  induction questions as [|q questions IH]; intros n answers sent H.
  - simpl in H. injection H as <-. lia.
  - cbn [forwardResolve_loop] in H.
    destruct (serialize (upstreamQuery (draws net n) q)); try done.
    destruct (exchanges net n) as [| |d]; try done.
    destruct (deserialize (readFrame fresh_buf d)) as [r| | |] eqn:Hr; try done.
    apply IH in H. rewrite length_app in H.
    apply deserialize_sizes in Hr as [_ Hr].
    pose proof (readFrame_slen fresh_buf d) as Hb.
    change (length fresh_buf) with 512 in Hb. simpl. lia.
Qed.

End Forward.

(** C9, as the code has it.  For questions whose names the encoder
    accepts, when every exchange with the resolver succeeds (the write,
    the read, and the decoding of the reply), [forwardResolve] sends one
    datagram per question, in the order of the questions; the datagram of
    a question is the serialized message with QDCOUNT = 1, QR = 0,
    RD = 1 and that question alone; and the answers returned are the
    answer sections of the decoded replies, concatenated in the order of
    the questions. *)
Theorem forwardResolve_all_succeed (net : upstream) (questions : list question) (n : nat)
    (replies : list message) :
  Forall (λ q, encodable (QNAME q)) questions →
  length replies = length questions →
  (∀ i r, replies !! i = Some r →
     ∃ d, exchanges net (n + i) = Reply d ∧ deserialize (readFrame fresh_buf d) = Ok r) →
  f_result (forwardResolve net questions n) = Ok (concat (m_answer <$> replies))
  ∧ length (f_sent (forwardResolve net questions n)) = length questions
  ∧ ∀ i q, questions !! i = Some q →
      ∃ message datagram,
        message = upstreamQuery (draws net (n + i)) q
        ∧ serialize message = Ok datagram
        ∧ f_sent (forwardResolve net questions n) !! i = Some datagram
        ∧ datagram = vec_to_list (m_header message) ++ wire_question q
        ∧ m_question message = [q] ∧ m_answer message = []
        ∧ QDCOUNT (m_header message) = 1%Z
        ∧ QR (m_header message) = 0%Z
        ∧ RD (m_header message) = 1%Z.
Proof.
  intros Henc Hlen Hex. unfold forwardResolve.
  rewrite (forwardResolve_loop_Ok net questions n [] [] replies Henc Hlen Hex).
  cbn [f_result f_sent app]. split; [done|]. split; [by rewrite length_imap|].
  intros i q Hq.
  exists (upstreamQuery (draws net (n + i)) q), (query_datagram (draws net (n + i)) q).
  split; [done|]. split.
  { apply upstreamQuery_serialize. eapply Forall_lookup_1 in Henc; [exact Henc|exact Hq]. }
  split; [by rewrite list_lookup_imap, Hq|].
  by repeat split.
Qed.

(** C9 as stated fails: with two questions and a resolver whose reads
    fail, one datagram is sent and the forwarding stops; and a question
    whose name the encoder refuses stops it before anything is sent, even
    with a resolver that answers every query. *)
Lemma forwardResolve_stops_at_failure :
  ¬ one_datagram_per_question.
Proof.
  intros H.
  specialize (H deaf [question_of [google; com]; question_of [com]] 0).
  vm_compute in H. discriminate H.
Qed.

Lemma forwardResolve_stops_at_long_label :
  forwardResolve (replying google_reply)
    [question_of [long_label]; question_of [google; com]] 0
  = Forwarded (Err LabelTooLong) [] 1.
Proof. vm_compute. reflexivity. Qed.

(** ** Header counts of the messages that are serialized *)

Section Counts.
Local Open Scope Z_scope.

Lemma uint16_small (k : nat) : Z.of_nat k < 65536 → uint16 (Z.of_nat k) = Z.of_nat k.
Proof. intros H. unfold uint16. apply Z.mod_small. lia. Qed.

Lemma staticAnswers_Ok (count i : nat) questions answers :
  (i + count ≤ length questions)%nat →
  ∃ new, staticAnswers count i questions answers = Ok (answers ++ new)
         ∧ length new = count.
Proof.
  revert i answers. induction count as [|count IH]; intros i answers Hlen;
    cbn [staticAnswers].
  - exists []. by rewrite app_nil_r.
  - destruct (questions !! i) as [q|] eqn:Hq; [|apply lookup_ge_None in Hq; lia].
    destruct (IH (S i) (answers ++
      [setData static_ip (setTTL 60 (setClass IN (setType A
         (setNAME (QNAME q) new_answer))))])) as (new & Hrun & Hl); [lia|].
    eexists (_ :: new). split.
    + rewrite Hrun, <- app_assoc. reflexivity.
    + simpl. by rewrite Hl.
Qed.

(** The response skeleton of a decoded request. *)
Lemma createResponseMessage_decoded frame request :
  (slen frame ≤ 512)%nat →
  deserialize frame = Ok request →
  ∃ response,
    createResponseMessage request = Ok response
    ∧ QDCOUNT (m_header response) = Z.of_nat (length (m_question response))
    ∧ (length (m_question response) ≤ 102)%nat
    ∧ m_answer response = [] ∧ m_authority response = [] ∧ m_additional response = []
    ∧ NSCOUNT (m_header response) = NSCOUNT (m_header request)
    ∧ ARCOUNT (m_header response) = ARCOUNT (m_header request).
Proof.
  intros Hlen Hdec.
  destruct (deserialize_counts _ _ Hdec) as [Hq _].
  destruct (deserialize_sizes _ _ Hdec) as [Hsz _].
  destruct (copyQuestions_Ok (Z.to_nat (QDCOUNT (m_header request))) 0
              (m_question request) []) as (qs & Hrun & Hl & _); [lia|].
  unfold createResponseMessage. rewrite Hrun. cbn [mbind outcome_bind obind app].
  eexists. split; [reflexivity|]. cbn [m_header m_question m_answer m_authority m_additional].
  assert (length qs ≤ 102)%nat by lia.
  split; [|split; [done|]].
  - unfold QDCOUNT, setQDCOUNT. rewrite get16_put16_same by done.
    rewrite uint16_small by lia. unfold uint16. apply Z.mod_small. lia.
  - do 3 (split; [done|]). unfold NSCOUNT, ARCOUNT, setQDCOUNT.
    rewrite !get16_put16_ne by done. unfold get16.
    by rewrite !responseHeader_other by done.
Qed.

Lemma setANCOUNT_counts (k : nat) (h : header) :
  Z.of_nat k < 65536 →
  ANCOUNT (setANCOUNT (uint16 (Z.of_nat k)) h) = Z.of_nat k
  ∧ QDCOUNT (setANCOUNT (uint16 (Z.of_nat k)) h) = QDCOUNT h
  ∧ NSCOUNT (setANCOUNT (uint16 (Z.of_nat k)) h) = NSCOUNT h
  ∧ ARCOUNT (setANCOUNT (uint16 (Z.of_nat k)) h) = ARCOUNT h.
Proof.
  intros Hk. unfold ANCOUNT, QDCOUNT, NSCOUNT, ARCOUNT, setANCOUNT.
  rewrite get16_put16_same by done. rewrite !get16_put16_ne by done.
  rewrite uint16_small by lia. split; [|done]. unfold uint16. apply Z.mod_small. lia.
Qed.

(** The response handed to [serialize], in both modes. *)
Lemma buildResponse_counts resolverConn frame n request response :
  (slen frame ≤ 512)%nat →
  deserialize frame = Ok request →
  h_response (buildResponse resolverConn frame n) = Ok response →
  QD_AN_match response
  ∧ m_authority response = [] ∧ m_additional response = []
  ∧ NSCOUNT (m_header response) = NSCOUNT (m_header request)
  ∧ ARCOUNT (m_header response) = ARCOUNT (m_header request).
Proof.
  intros Hlen Hdec.
  destruct (createResponseMessage_decoded _ _ Hlen Hdec)
    as (skel & Hskel & Hqd & Hnq & Han & Hau & Had & Hns & Har).
  unfold buildResponse. rewrite Hdec. cbn [mbind outcome_bind obind]. rewrite Hskel.
  destruct resolverConn as [net|]; cbn [h_response].
  - intros H. bind_inv H. injection H as <-.
    unfold QD_AN_match. cbn [m_header m_question m_answer m_authority m_additional].
    apply forwardResolve_loop_answers in Ha. simpl in Ha.
    destruct (setANCOUNT_counts (length a) (m_header skel)) as (-> & -> & -> & ->); [lia|].
    by repeat split.
  - unfold addStaticAnswer. rewrite Hqd, Nat2Z.id, Han.
    destruct (staticAnswers_Ok (length (m_question skel)) 0 (m_question skel) [])
      as (new & -> & Hl); [lia|].
    cbn [mbind outcome_bind obind app]. intros H. injection H as <-.
    unfold QD_AN_match. cbn [m_header m_question m_answer m_authority m_additional].
    destruct (setANCOUNT_counts (length new) (m_header skel)) as (-> & -> & -> & ->); [lia|].
    by repeat split.
Qed.
End Counts.

(** C5, as the code has it.  In every response about to be serialized
    (static or forwarding mode) QDCOUNT and ANCOUNT are the numbers of
    questions and answers that [serialize] writes, and [serialize] writes
    no authority or additional record; NSCOUNT and ARCOUNT, which are
    the request's, are zero with it when the request's are zero.  In every
    query sent to the resolver the four counts are 1, 0, 0, 0 for its one
    question and no record. *)
Theorem serialized_counts_match :
  (∀ resolverConn frame n request response,
     slen frame ≤ 512 →
     deserialize frame = Ok request →
     h_response (buildResponse resolverConn frame n) = Ok response →
     QD_AN_match response
     ∧ (NS_AR_match request → counts_match response)
     ∧ ∀ bytes, serialize response = Ok bytes →
         bytes = vec_to_list (m_header response)
                   ++ flat_map wire_question (m_question response)
                   ++ flat_map wire_RR (m_answer response))
  ∧ (∀ draw q,
       counts_match (upstreamQuery draw q)
       ∧ m_question (upstreamQuery draw q) = [q]
       ∧ m_answer (upstreamQuery draw q) = []
       ∧ ∀ bytes, serialize (upstreamQuery draw q) = Ok bytes →
           bytes = vec_to_list (m_header (upstreamQuery draw q)) ++ wire_question q).
Proof.
  split.
  - intros resolverConn frame n request response Hlen Hdec Hresp.
    destruct (buildResponse_counts _ _ _ _ _ Hlen Hdec Hresp)
      as (Hqa & _ & _ & Hns & Har).
    split; [done|]. split; [|apply serialize_layout].
    intros [Hn Ha]. split; [done|]. split; congruence.
  - intros draw q. split; [|split; [done|split; [done|]]].
    + destruct (upstreamQuery_header draw q) as (Hqd & _ & _ & Han & Hns & Har).
      by repeat split.
    + intros bytes Hs. apply serialize_layout in Hs. rewrite Hs. simpl.
      by rewrite !app_nil_r.
Qed.

(** C5 as stated fails: the response to a query that announces one
    additional record says ARCOUNT = 1, and the bytes serialized are the
    header, one question and one answer. *)
Lemma edns_response_announces_additional :
  ¬ responses_counts_match.
Proof.
  intros H.
  specialize (H None (readFrame fresh_buf edns_query) 0).
  destruct (h_response (buildResponse None (readFrame fresh_buf edns_query) 0))
    as [response| | |] eqn:Hr; [|vm_compute in Hr; discriminate Hr ..].
  specialize (H response (readFrame_slen _ _) eq_refl) as [_ [_ Har]].
  vm_compute in Hr. injection Hr as <-. vm_compute in Har. discriminate Har.
Qed.

Lemma edns_response_bytes :
  ∃ response bytes,
    h_response (buildResponse None (readFrame fresh_buf edns_query) 0) = Ok response
    ∧ serialize response = Ok bytes
    ∧ ARCOUNT (m_header response) = 1%Z
    ∧ bytes = vec_to_list (m_header response)
                ++ wire_question (question_of [google; com])
                ++ wire_RR (setData static_ip (setTTL 60 (setClass IN (setType A
                     (setNAME [google; com] new_answer))))).
Proof.
  eexists. eexists. split; [vm_compute; reflexivity|].
  split; [vm_compute; reflexivity|]. split; reflexivity.
Qed.

(** ** The loop of [main] *)






(** Every reply the loop sends is the serialization of a response built
    from a decoded frame of at most 512 bytes. *)
Lemma readFrame_whole buf d :
  length (elems (readFrame buf d) ++ spare (readFrame buf d)) = length buf.
Proof.
  unfold readFrame. cbn [elems spare].
  rewrite length_app, length_drop, length_take. lia.
Qed.

Lemma buildResponse_request resolverConn frame n response :
  h_response (buildResponse resolverConn frame n) = Ok response →
  ∃ request, deserialize frame = Ok request.
Proof.
  unfold buildResponse. destruct (deserialize frame) as [request| | |]; [eauto|done..].
Qed.

Lemma serve_replies resolverConn arrivals buf n bytes :
  length buf = 512 →
  Replied bytes ∈ serve resolverConn arrivals buf n →
  ∃ frame k request response,
    slen frame ≤ 512
    ∧ deserialize frame = Ok request
    ∧ h_response (buildResponse resolverConn frame k) = Ok response
    ∧ serialize response = Ok bytes.
Proof.
  revert buf n. induction arrivals as [|d arrivals IH]; intros buf n Hbuf Hin;
    cbn [serve] in Hin.
  - by apply elem_of_nil in Hin.
  - pose proof (readFrame_slen buf d) as Hlen. pose proof (readFrame_whole buf d) as Hwhole.
    destruct (h_response (buildResponse resolverConn (readFrame buf d) n) ≫= serialize)
      as [serialized| | |] eqn:Hs.
    + apply elem_of_cons in Hin as [Heq|Hin].
      * injection Heq as ->. bind_inv Hs.
        destruct (buildResponse_request _ _ _ _ Ha) as [request Hreq].
        exists (readFrame buf d), n, request, a. split; [lia|done].
      * eapply IH; [|exact Hin]. lia.
    + apply elem_of_cons in Hin as [Heq|Hin]; [done|].
      eapply IH; [|exact Hin]. lia.
    + apply elem_of_cons in Hin as [Heq|Hin]; [done|]. by apply elem_of_nil in Hin.
    + apply elem_of_cons in Hin as [Heq|Hin]; [done|]. by apply elem_of_nil in Hin.
Qed.

(** ** Scenarios *)

(** A label that follows others in the frame is found through the
    position of the first: google at 12, com at 19, and a later pointer
    to 12. *)
Lemma compression_example :
  allSubsequentLabels google_cache 12 = Some [google; com]
  ∧ ∃ m, deserialize (Slice two_question_query []) = Ok m
         ∧ QNAME <$> m_question m = [[google; com]; [[119; 119; 119]%Z; google; com]].
Proof.
  split; [vm_compute; reflexivity|].
  eexists. split; [vm_compute; reflexivity|]. reflexivity.
Qed.

(** Static mode: one question, one A record with TTL 60 and the fixed
    address. *)
Lemma static_mode_example :
  ∃ response,
    h_response (buildResponse None (readFrame fresh_buf google_query) 0) = Ok response
    ∧ ANCOUNT (m_header response) = 1%Z
    ∧ m_answer response
      = [{| NAME := [google; com]; TYPE := PutUint16 A; CLASS := PutUint16 IN;
            TTL := PutUint32 60; RDLENGTH := PutUint16 4; RDATA := [8; 8; 8; 8]%Z |}].
Proof. eexists. split; [vm_compute; reflexivity|]. split; reflexivity. Qed.

(** A name of labels within the limit whose encoding is longer than 255
    bytes is refused as a whole. *)
Lemma encodeLabelSequence_name_too_long labels :
  Forall (λ l, length l ≤ 63) labels →
  255 < length (wire_name labels) →
  encodeLabelSequence labels = Err NameTooLong.
Proof.
  intros Hv Hlen. unfold encodeLabelSequence. rewrite (encodeLabels_loop_Ok _ _ Hv).
  simpl. fold (wire_name labels). by rewrite decide_True by lia.
Qed.

(** ** The theorems at sample inputs *)

Ltac bytes_ok := apply (bool_decide_unpack _); vm_compute; exact I.

Lemma deserialize_serialize_witness :
  valid_message google_reply_message
  ∧ ∃ bytes m',
      serialize google_reply_message = Ok bytes
      ∧ deserialize (Slice bytes []) = Ok m'
      ∧ m_header m' = m_header google_reply_message
      ∧ m_question m' = m_question google_reply_message
      ∧ m_answer m' = m_answer google_reply_message.
Proof.
  assert (Hn : valid_name [google; com]).
  { split; [|vm_compute; lia].
    apply Forall_cons. split; [vm_compute; lia|].
    apply Forall_cons. split; [vm_compute; lia|apply Forall_nil_2]. }
  assert (Hv : valid_message google_reply_message).
  { split; [apply Forall_cons; split; [exact Hn|apply Forall_nil_2]|].
    split; [apply Forall_cons; split; [split; [exact Hn|reflexivity]|apply Forall_nil_2]|].
    repeat split. }
  split; [exact Hv|]. exact (deserialize_serialize google_reply_message [] Hv).
Defined.

Lemma createResponseMessage_header_witness :
  ∃ request,
    Forall is_byte (elems (Slice google_query []))
    ∧ deserialize (Slice google_query []) = Ok request
    ∧ ∃ response,
        createResponseMessage request = Ok response
        ∧ (OPCODE (m_header request) = QUERY →
             QR (m_header response) = 1%Z
             ∧ RCODE (m_header response) = 0%Z
             ∧ QDCOUNT (m_header response) = QDCOUNT (m_header request))
        ∧ (OPCODE (m_header request) ≠ QUERY → RCODE (m_header response) = 4%Z).
Proof.
  eexists. split; [bytes_ok|]. split; [vm_compute; reflexivity|].
  apply (createResponseMessage_header (Slice google_query [])); [bytes_ok|].
  vm_compute; reflexivity.
Defined.

Lemma decodeLabels_pointer_is_192_witness :
  index (Slice two_question_query []) 32 = Ok 192%Z
  ∧ (192%Z = 192%Z → ∀ p, index (Slice two_question_query []) (32 + 1) = Ok p →
       decodeLabels_loop (S 4) (Slice two_question_query []) 32 google_cache [[119; 119; 119]%Z]
       = pointer_step 32 google_cache [[119; 119; 119]%Z] p)
  ∧ ((192 < 192 ≤ 255)%Z →
       decodeLabels_loop (S 4) (Slice two_question_query []) 32 google_cache [[119; 119; 119]%Z]
       = literal_step 4 (Slice two_question_query []) 32 google_cache
           [[119; 119; 119]%Z] 192%Z).
Proof.
  split; [reflexivity|].
  apply (decodeLabels_pointer_is_192 4 (Slice two_question_query []) 32 google_cache
           [[119; 119; 119]%Z] 192%Z).
  reflexivity.
Defined.

Lemma allSubsequentLabels_terminates_witness :
  nonempty_labels google_cache
  ∧ ∃ labels,
      allSubsequentLabels google_cache 12 = Some labels
      ∧ (∀ fuel, size (positionMap google_cache) < fuel →
           allSubsequentLabels_loop fuel google_cache 12 [] = Some labels)
      ∧ chain google_cache 12 labels
      ∧ length labels ≤ size (positionMap google_cache)
      ∧ (∀ pos l, positionMap google_cache !! pos = Some l → pos + 2 ≤ pos + (length l + 1)).
Proof.
  assert (H : nonempty_labels google_cache).
  { apply record_nonempty; [apply record_nonempty; [apply emptyCache_nonempty|]|]; done. }
  split; [exact H|]. exact (allSubsequentLabels_terminates google_cache 12 H).
Defined.

Lemma forwardResolve_all_succeed_witness :
  ∃ r,
    deserialize (readFrame fresh_buf google_reply) = Ok r
    ∧ Forall (λ q, encodable (QNAME q)) [question_of [google; com]; question_of [com]]
    ∧ length [r; r] = length [question_of [google; com]; question_of [com]]
    ∧ f_result (forwardResolve (replying google_reply)
                  [question_of [google; com]; question_of [com]] 0)
      = Ok (concat (m_answer <$> [r; r]))
    ∧ length (f_sent (forwardResolve (replying google_reply)
                        [question_of [google; com]; question_of [com]] 0)) = 2.
Proof.
  eexists. split; [vm_compute; reflexivity|].
  assert (He : Forall (λ q, encodable (QNAME q))
                 [question_of [google; com]; question_of [com]]).
  { apply Forall_cons. split.
    { split; [|vm_compute; lia].
      apply Forall_cons. split; [vm_compute; lia|].
      apply Forall_cons. split; [vm_compute; lia|apply Forall_nil_2]. }
    apply Forall_cons. split; [|apply Forall_nil_2].
    split; [|vm_compute; lia].
    apply Forall_cons. split; [vm_compute; lia|apply Forall_nil_2]. }
  split; [exact He|]. split; [reflexivity|].
  match goal with |- context [m_answer <$> [?r; _]] => set (reply := r) end.
  destruct (forwardResolve_all_succeed (replying google_reply)
              [question_of [google; com]; question_of [com]] 0 [reply; reply] He eq_refl)
    as (Hres & Hsent & _).
  { intros i r' Hi. exists google_reply. split; [reflexivity|].
    destruct i as [|[|i]]; simpl in Hi; [| |discriminate Hi];
      injection Hi as <-; vm_compute; reflexivity. }
  split; [exact Hres|exact Hsent].
Defined.

Lemma serialized_counts_match_witness :
  ∃ request response,
    slen (readFrame fresh_buf google_query) ≤ 512
    ∧ deserialize (readFrame fresh_buf google_query) = Ok request
    ∧ h_response (buildResponse None (readFrame fresh_buf google_query) 0) = Ok response
    ∧ QD_AN_match response
    ∧ (NS_AR_match request → counts_match response).
Proof.
  eexists. eexists. split; [apply readFrame_slen|].
  split; [vm_compute; reflexivity|]. split; [vm_compute; reflexivity|].
  destruct (proj1 serialized_counts_match None (readFrame fresh_buf google_query) 0
              _ _ (readFrame_slen _ _) eq_refl eq_refl) as (Hqa & Hns & _).
  split; [exact Hqa|exact Hns].
Defined.

Lemma decoder_accepts_label_encoder_rejects_witness :
  64 ≤ length long_label ≤ 191
  ∧ ∃ m, deserialize (Slice (one_label_query long_label) []) = Ok m
         ∧ m_question m = [question_of [long_label]]
         ∧ serialize m = Err LabelTooLong.
Proof.
  assert (H : 64 ≤ length long_label ≤ 191) by (vm_compute; lia).
  split; [exact H|].
  exact (proj1 (proj2 decoder_accepts_label_encoder_rejects) long_label [] H).
Defined.

(** ** The header accessors *)

Section HeaderFields.
Local Open Scope Z_scope.

Lemma land_lor_disjoint (b m k : Z) : Z.land m k = 0 → Z.land (Z.lor b m) k = Z.land b k.
Proof. intros H. by rewrite Z.land_lor_distr_l, H, Z.lor_0_r. Qed.

(** X1. The three 16-bit fields with a setter and a getter each read
    back what was written, modulo 65536, and writing one of them leaves
    the other two and the two flag bytes as they were. *)
Theorem header_fields_roundtrip (h : header) (v : Z) :
  (id (setId v h) = uint16 v
   ∧ QDCOUNT (setId v h) = QDCOUNT h ∧ ANCOUNT (setId v h) = ANCOUNT h
   ∧ setId v h !!! 2%fin = h !!! 2%fin ∧ setId v h !!! 3%fin = h !!! 3%fin)
  ∧ (QDCOUNT (setQDCOUNT v h) = uint16 v
     ∧ id (setQDCOUNT v h) = id h ∧ ANCOUNT (setQDCOUNT v h) = ANCOUNT h
     ∧ setQDCOUNT v h !!! 2%fin = h !!! 2%fin ∧ setQDCOUNT v h !!! 3%fin = h !!! 3%fin)
  ∧ (ANCOUNT (setANCOUNT v h) = uint16 v
     ∧ id (setANCOUNT v h) = id h ∧ QDCOUNT (setANCOUNT v h) = QDCOUNT h
     ∧ setANCOUNT v h !!! 2%fin = h !!! 2%fin ∧ setANCOUNT v h !!! 3%fin = h !!! 3%fin).
Proof.
  unfold id, QDCOUNT, ANCOUNT, setId, setQDCOUNT, setANCOUNT.
  rewrite !get16_put16_same by done. rewrite !get16_put16_ne by done.
  rewrite !put16_lookup_ne by done. done.
Qed.

(** X2. The one-bit setters or their argument into the byte: with 1 they
    set their bit, with 0 they change nothing, so none of them can clear
    a bit.  [setRCODE] overwrites its field with the low four bits of its
    argument.  [setZ] overwrites its field with bits 4 to 6 of its
    argument: the value has to come shifted, and [setZ(7)] writes 0. *)
Theorem flag_setters (h : header) :
  (QR (setQR 1 h) = 1 ∧ AA (setAA 1 h) = 1 ∧ TC (setTC 1 h) = 1
   ∧ RD (setRD 1 h) = 1 ∧ RA (setRA 1 h) = 1)
  ∧ (setQR 0 h = h ∧ setAA 0 h = h ∧ setTC 0 h = h ∧ setRD 0 h = h ∧ setRA 0 h = h)
  ∧ (∀ code, RCODE (setRCODE code h) = Z.land code 0x0F)
  ∧ (∀ val, Zbits (setZ val h) = Z.land (Z.shiftr val 4) 0x07)
  ∧ Zbits (setZ 7 h) = 0.
Proof.
  split; [|split; [|split; [|split]]].
  - unfold QR, AA, TC, RD, RA, setQR, setAA, setTC, setRD, setRA.
    rewrite !vlookup_insert.
    change (uint8 (1 ≪ 7)) with 128. change (uint8 (1 ≪ 2)) with 4.
    change (uint8 (1 ≪ 1)) with 2.
    by rewrite !land_lor_mask.
  - unfold setQR, setAA, setTC, setRD, setRA.
    change (uint8 (0 ≪ 7)) with 0. change (uint8 (0 ≪ 2)) with 0.
    change (uint8 (0 ≪ 1)) with 0.
    rewrite !Z.lor_0_r. by rewrite !vlookup_insert_self.
  - intros code. unfold RCODE, setRCODE. rewrite vlookup_insert, Z.land_lor_distr_l.
    rewrite (land_land_disjoint _ 0xF0 0x0F) by reflexivity.
    rewrite <- Z.land_assoc. reflexivity.
  - intros val. unfold Zbits, setZ. rewrite vlookup_insert, Z.land_lor_distr_l.
    rewrite (land_land_disjoint _ 0x8F 0x70) by reflexivity.
    rewrite <- Z.land_assoc. change (Z.land 0x70 0x70) with 0x70.
    rewrite Z.lor_0_l, Z.shiftr_land. reflexivity.
  - unfold Zbits, setZ. rewrite vlookup_insert, Z.land_lor_distr_l.
    rewrite (land_land_disjoint _ 0x8F 0x70) by reflexivity. reflexivity.
Qed.

(** X3. The response header keeps the request's transaction id, OPCODE
    and RD bit. *)
Theorem createResponseMessage_echo (request response : message) :
  createResponseMessage request = Ok response →
  id (m_header response) = id (m_header request)
  ∧ OPCODE (m_header response) = OPCODE (m_header request)
  ∧ RD (m_header response) = RD (m_header request).
Proof.
  unfold createResponseMessage. intros H. bind_inv H. injection H as <-. simpl.
  unfold id, OPCODE, RD, setQDCOUNT.
  rewrite get16_put16_ne by done. rewrite !put16_lookup_ne by done.
  unfold get16. rewrite !responseHeader_other by done.
  rewrite responseHeader_byte2.
  by rewrite !land_lor_disjoint by reflexivity.
Qed.
End HeaderFields.

(** ** The encoder and [serialize] *)

Section Encoder.

Lemma wire_name_length_sum labels :
  length (wire_name labels) = sum_list ((λ l, 1 + length l) <$> labels) + 1.
Proof.
  unfold wire_name. rewrite length_app. simpl. f_equal.
  induction labels as [|l labels IH]; [done|].
  simpl. rewrite length_app, IH. done.
Qed.

(** X4. [encodeLabelSequence] returns the length-prefixed labels and a
    closing zero exactly when no label is longer than 63 bytes and the
    whole (one byte more than the labels and their length bytes) is at
    most 255 bytes long; a label of more than 63 bytes gives the
    label-too-long error, whatever the total; labels within the limit
    and more than 255 bytes in all give the name-too-long error.  An
    empty label is accepted like any other. *)
Theorem encodeLabelSequence_cases (labels : list label) :
  (encodable labels → encodeLabelSequence labels = Ok (wire_name labels))
  ∧ (Exists (λ l, 63 < length l) labels → encodeLabelSequence labels = Err LabelTooLong)
  ∧ (Forall (λ l, length l ≤ 63) labels → 255 < length (wire_name labels) →
       encodeLabelSequence labels = Err NameTooLong)
  ∧ (∀ enc, encodeLabelSequence labels = Ok enc →
       enc = wire_name labels ∧ encodable labels
       ∧ length enc = sum_list ((λ l, 1 + length l) <$> labels) + 1).
Proof.
  split; [apply encodeLabelSequence_encodable|]. split; [|split].
  - intros Hex. unfold encodeLabelSequence.
    by rewrite (encodeLabels_loop_too_long _ _ Hex).
  - apply encodeLabelSequence_name_too_long.
  - intros enc [-> He]%encodeLabelSequence_inv. split; [done|]. split; [done|].
    apply wire_name_length_sum.
Qed.

Lemma serializeQuestions_encodable qs buf :
  Forall (λ q, encodable (QNAME q)) qs →
  serializeQuestions qs buf = Ok (buf ++ flat_map wire_question qs).
Proof.
  revert buf. induction qs as [|q qs IH]; intros buf Hv; simpl.
  - by rewrite app_nil_r.
  - apply Forall_cons in Hv as [Hq Hv]. rewrite (encodeLabelSequence_encodable _ Hq). simpl.
    rewrite (IH _ Hv). unfold wire_question. by rewrite <- !app_assoc.
Qed.

Lemma serializeAnswers_encodable rrs buf :
  Forall (λ a, encodable (NAME a)) rrs →
  serializeAnswers rrs buf = Ok (buf ++ flat_map wire_RR rrs).
Proof.
  revert buf. induction rrs as [|a rrs IH]; intros buf Hv; simpl.
  - by rewrite app_nil_r.
  - apply Forall_cons in Hv as [Ha Hv]. rewrite (encodeLabelSequence_encodable _ Ha). simpl.
    rewrite (IH _ Hv). unfold wire_RR. by rewrite <- !app_assoc.
Qed.

Lemma encodeLabelSequence_Err labels e :
  encodeLabelSequence labels = Err e → e = LabelTooLong ∨ e = NameTooLong.
Proof.
  unfold encodeLabelSequence.
  destruct (encodeLabels_loop_returns labels []) as [[enc ->]| ->]; simpl.
  - case_decide; [|done]. intros [= <-]. by right.
  - intros [= <-]. by left.
Qed.

Lemma serializeQuestions_Err qs buf e :
  serializeQuestions qs buf = Err e → e = LabelTooLong ∨ e = NameTooLong.
Proof.
  revert buf. induction qs as [|q qs IH]; intros buf; simpl; [done|].
  destruct (encodeLabelSequence (QNAME q)) as [enc|e'| |] eqn:He; simpl; try done.
  - apply IH.
  - intros [= <-]. by eapply encodeLabelSequence_Err.
Qed.

Lemma serializeAnswers_Err rrs buf e :
  serializeAnswers rrs buf = Err e → e = LabelTooLong ∨ e = NameTooLong.
Proof.
  revert buf. induction rrs as [|a rrs IH]; intros buf; simpl; [done|].
  destruct (encodeLabelSequence (NAME a)) as [enc|e'| |] eqn:He; simpl; try done.
  - apply IH.
  - intros [= <-]. by eapply encodeLabelSequence_Err.
Qed.

(** X5. [serialize] returns bytes exactly when the encoder accepts the
    name of every question and of every answer, and the bytes are then
    the 12 header bytes, the questions and the answers in order, each
    field at its fixed width; otherwise it returns one of the two errors
    of the encoder.  It never panics. *)
Theorem serialize_cases (m : message) :
  (∀ bytes,
     serialize m = Ok bytes ↔
       Forall (λ q, encodable (QNAME q)) (m_question m)
       ∧ Forall (λ a, encodable (NAME a)) (m_answer m)
       ∧ bytes = vec_to_list (m_header m) ++ flat_map wire_question (m_question m)
                   ++ flat_map wire_RR (m_answer m))
  ∧ (∀ e, serialize m = Err e → e = LabelTooLong ∨ e = NameTooLong)
  ∧ (∀ p, serialize m ≠ Panic p).
Proof.
  split; [|split].
  - intros bytes. split.
    + unfold serialize. intros H. bind_inv H.
      apply serializeQuestions_inv in Ha as [-> Hq].
      apply serializeAnswers_inv in H as [-> Ha]. by rewrite <- app_assoc.
    + intros (Hq & Ha & ->). unfold serialize.
      rewrite (serializeQuestions_encodable _ _ Hq). simpl.
      rewrite (serializeAnswers_encodable _ _ Ha). by rewrite <- app_assoc.
  - intros e. unfold serialize.
    destruct (serializeQuestions (m_question m) (vec_to_list (m_header m)))
      as [buf|e'| |] eqn:Hq; simpl; try done.
    + apply serializeAnswers_Err.
    + intros [= <-]. by eapply serializeQuestions_Err.
  - intros p Hp. destruct (serialize_returns m) as [[? ?]|[? ?]]; congruence.
Qed.

Lemma questionLen_below qs a :
  foldl (λ total q, total + question_len q) a qs ≤ a + length (flat_map wire_question qs)
  ∧ (foldl (λ total q, total + question_len q) a qs = a + length (flat_map wire_question qs)
     → qs = []).
Proof.
  revert a. induction qs as [|q qs IH]; intros a; simpl; [split; [lia|done]|].
  destruct (IH (a + question_len q)) as [Hle _].
  pose proof (question_len_short q). rewrite length_app. split; [lia|]. intros Heq. lia.
Qed.

Lemma answerLen_below rrs a :
  foldl (λ total r, total + RR_len r) a rrs ≤ a + length (flat_map wire_RR rrs)
  ∧ (foldl (λ total r, total + RR_len r) a rrs = a + length (flat_map wire_RR rrs)
     → rrs = []).
Proof.
  revert a. induction rrs as [|r rrs IH]; intros a; simpl; [split; [lia|done]|].
  destruct (IH (a + RR_len r)) as [Hle _].
  pose proof (RR_len_short r). rewrite length_app. split; [lia|]. intros Heq. lia.
Qed.

(** X6. The capacity [serialize] reserves is never more than the bytes it
    produces, and equals them only for a message with no question and no
    answer: each entry is counted with the number of its labels where
    the bytes of its encoded name are written. *)
Theorem serialize_capacity_below (m : message) (bytes : list byte) :
  serialize m = Ok bytes →
  serialize_capacity m ≤ length bytes
  ∧ (serialize_capacity m = length bytes ↔ m_question m = [] ∧ m_answer m = []).
Proof.
  intros ->%serialize_layout. unfold serialize_capacity, questionLen, answerLen.
  rewrite !length_app, length_vec_to_list.
  destruct (questionLen_below (m_question m) 0) as [Hq Hq'].
  destruct (answerLen_below (m_answer m) 0) as [Ha Ha'].
  split; [lia|]. split.
  - intros Heq. split; [apply Hq'|apply Ha']; lia.
  - intros [-> ->]. reflexivity.
Qed.
End Encoder.

(** ** The decoder: errors, shape and size of a decoded message *)

Section DecoderErrors.
Implicit Types (frame : slice) (head : nat) (cache : labelCache).

Lemma index_not_Err frame i e : index frame i ≠ Err e.
Proof. unfold index. by destruct (elems frame !! i). Qed.

Lemma extractUint16_not_Err frame head e : extractUint16 frame head ≠ Err e.
Proof.
  unfold extractUint16, index.
  destruct (elems frame !! head); [|done]. simpl.
  by destruct (elems frame !! (head + 1)).
Qed.

Lemma extractUint32_not_Err frame head e : extractUint32 frame head ≠ Err e.
Proof.
  unfold extractUint32, index.
  destruct (elems frame !! head); [|done]. simpl.
  destruct (elems frame !! (head + 1)); [|done]. simpl.
  destruct (elems frame !! (head + 2)); [|done]. simpl.
  by destruct (elems frame !! (head + 3)).
Qed.

Lemma extractBytes_not_Err frame head n e : extractBytes frame head n ≠ Err e.
Proof. unfold extractBytes, reslice. by case_decide. Qed.

Lemma bind_Err {A B} (m : outcome A) (k : A → outcome B) (e : error) :
  m ≫= k = Err e → m = Err e ∨ ∃ a, m = Ok a ∧ k a = Err e.
Proof.
  destruct m as [a|e'|p|]; cbn [mbind outcome_bind obind]; intros H.
  - right. by exists a.
  - injection H as <-. by left.
  - discriminate H.
  - discriminate H.
Qed.

(** The one error of [decodeLabels]. *)
Lemma decodeLabels_loop_Err fuel frame head cache labels e :
  decodeLabels_loop fuel frame head cache labels = Err e →
  ∃ p, e = InvalidLabelReference p.
Proof.
  revert head cache labels. induction fuel as [|fuel IH]; intros head cache labels H; [done|].
  cbn [decodeLabels_loop] in H.
  apply bind_Err in H as [H|(b & Hb & H)]; [by apply index_not_Err in H|].
  case_decide; [done|]. case_decide.
  - apply bind_Err in H as [H|(p & Hp & H)]; [by apply index_not_Err in H|].
    destruct (allSubsequentLabels cache (Z.to_nat p)); [|done].
    case_decide; [|done]. injection H as <-. eauto.
  - apply bind_Err in H as [H|([l h'] & Hl & H)]; [by apply extractBytes_not_Err in H|].
    by eapply IH.
Qed.

Lemma decodeQuestions_Err count frame head cache qs e :
  decodeQuestions count frame head cache qs = Err e → ∃ p, e = InvalidLabelReference p.
Proof.
  revert head cache qs. induction count as [|count IH]; intros head cache qs H; [done|].
  cbn [decodeQuestions] in H.
  apply bind_Err in H as [H|([[ls h1] c1] & _ & H)]; [by eapply decodeLabels_loop_Err|].
  apply bind_Err in H as [H|([[qt ?] h2] & _ & H)]; [by apply extractUint16_not_Err in H|].
  apply bind_Err in H as [H|([[qc ?] h3] & _ & H)]; [by apply extractUint16_not_Err in H|].
  by eapply IH.
Qed.

Lemma decodeAnswers_Err count frame head cache rrs e :
  decodeAnswers count frame head cache rrs = Err e → ∃ p, e = InvalidLabelReference p.
Proof.
  revert head cache rrs. induction count as [|count IH]; intros head cache rrs H; [done|].
  cbn [decodeAnswers] in H.
  apply bind_Err in H as [H|([[ls h1] c1] & _ & H)]; [by eapply decodeLabels_loop_Err|].
  apply bind_Err in H as [H|([[ty ?] h2] & _ & H)]; [by apply extractUint16_not_Err in H|].
  apply bind_Err in H as [H|([[cl ?] h3] & _ & H)]; [by apply extractUint16_not_Err in H|].
  apply bind_Err in H as [H|([ttl h4] & _ & H)]; [by apply extractUint32_not_Err in H|].
  apply bind_Err in H as [H|([[rl rdl] h5] & _ & H)]; [by apply extractUint16_not_Err in H|].
  apply bind_Err in H as [H|([rd h6] & _ & H)]; [by apply extractBytes_not_Err in H|].
  by eapply IH.
Qed.

(** X7. [deserialize] returns the malformed-header error exactly for the
    frames of fewer than 12 bytes, and the only other error it ever
    returns is the invalid label reference of a pointer. *)
Theorem deserialize_errors (frame : slice) :
  (slen frame < 12 ↔ deserialize frame = Err MalformedHeader)
  ∧ (∀ e, deserialize frame = Err e →
       (e = MalformedHeader ∧ slen frame < 12)
       ∨ (12 ≤ slen frame ∧ ∃ p, e = InvalidLabelReference p)).
Proof.
  assert (Hlong : ∀ e, 12 ≤ slen frame → deserialize frame = Err e →
                       ∃ p, e = InvalidLabelReference p).
  { intros e Hlen. unfold deserialize, copy_header. cbv zeta.
    rewrite decide_False by lia. intros H.
    apply bind_Err in H as [H|([[qs h1] c1] & _ & H)]; [by eapply decodeQuestions_Err|].
    apply bind_Err in H as [H|([[rrs h2] c2] & _ & H)]; [by eapply decodeAnswers_Err|].
    done. }
  split.
  - split; [apply deserialize_short|].
    intros H. destruct (decide (slen frame < 12)) as [|Hge]; [done|].
    destruct (Hlong MalformedHeader) as [p Hp]; [lia|done|done].
  - intros e H. destruct (decide (slen frame < 12)) as [Hlt|Hge].
    + left. rewrite (deserialize_short _ Hlt) in H. by injection H as <-.
    + right. split; [lia|]. apply Hlong; [lia|done].
Qed.

Lemma copy_header_take frame :
  12 ≤ slen frame → vec_to_list (copy_header frame).1 = take 12 (elems frame).
Proof.
  unfold slen, copy_header. destruct frame as [e sp]. simpl. intros H.
  do 12 (destruct e as [|? e]; [simpl in H; lia|]). reflexivity.
Qed.

(** X8. A message that [deserialize] returns has the first 12 bytes of
    the frame as its header, as many questions as QDCOUNT says and as
    many answers as ANCOUNT says, and no authority or additional record,
    whatever NSCOUNT and ARCOUNT say and whatever follows the answers in
    the frame. *)
Theorem deserialize_shape (frame : slice) (m : message) :
  deserialize frame = Ok m →
  vec_to_list (m_header m) = take 12 (elems frame)
  ∧ Z.of_nat (length (m_question m)) = Z.max 0 (QDCOUNT (m_header m))
  ∧ Z.of_nat (length (m_answer m)) = Z.max 0 (ANCOUNT (m_header m))
  ∧ m_authority m = [] ∧ m_additional m = []
  ∧ is_Some (m_cache m).
Proof.
  intros H. destruct (deserialize_counts _ _ H) as [Hq Ha].
  destruct (deserialize_Ok _ _ H) as (Hlen & Hhdr & Hau & Had & _ & _ & _ & c2 & _ & _ & Hc).
  split; [rewrite Hhdr; by apply copy_header_take|].
  split; [lia|]. split; [lia|]. by rewrite Hc.
Qed.

(** X9. Every question takes at least 5 bytes of the frame and every
    answer at least 11, after the 12 bytes of the header: a frame is
    never decoded into more entries than that leaves room for, whatever
    its count fields say. *)
Theorem deserialize_entries_fit (frame : slice) (m : message) :
  deserialize frame = Ok m →
  12 + 5 * length (m_question m) + 11 * length (m_answer m) ≤ slen frame.
Proof.
  intros H. destruct (deserialize_counts _ _ H) as [Hnq Hna].
  destruct (deserialize_Ok _ _ H) as (Hlen & _ & _ & _ & h1 & c1 & h2 & c2 & Hq & Ha & _).
  apply decodeQuestions_consumed in Hq. apply decodeAnswers_consumed in Ha. lia.
Qed.

Lemma decodeLabels_loop_more_fuel fuel frame head cache labels :
  slen frame - head < fuel →
  decodeLabels_loop (S fuel) frame head cache labels
  = decodeLabels_loop fuel frame head cache labels.
Proof.
  revert head cache labels. induction fuel as [|fuel IH]; intros head cache labels Hf; [lia|].
  cbn [decodeLabels_loop].
  destruct (index frame head) as [b| | |] eqn:Hb; try done.
  pose proof (index_lt _ _ _ Hb). cbn [mbind outcome_bind obind].
  case_decide; [done|]. case_decide; [done|].
  destruct (extractBytes frame (head + 1) (Z.to_nat b)) as [[l h']| | |] eqn:He; try done.
  apply extractBytes_Ok in He as (-> & _). cbn [mbind outcome_bind obind].
  apply IH. lia.
Qed.

(** X10. The loop of [decodeLabels] ends on every frame, from every
    cursor and with every cache: each iteration that goes on has read a
    byte inside the frame and moved the cursor forward, so one iteration
    more than the frame has bytes is never used up, and any larger number
    of iterations gives the same result. *)
Theorem decodeLabels_terminates (frame : slice) (head : nat) (cache : labelCache)
    (extra : nat) :
  decodeLabels frame head cache ≠ OutOfFuel
  ∧ decodeLabels_loop (S (slen frame) + extra) frame head cache []
    = decodeLabels frame head cache.
Proof.
  split; [apply decodeLabels_total|]. unfold decodeLabels.
  induction extra as [|extra IH]; [by rewrite Nat.add_0_r|].
  rewrite <- IH. replace (S (slen frame) + S extra) with (S (S (slen frame) + extra)) by lia.
  apply decodeLabels_loop_more_fuel. lia.
Qed.
End DecoderErrors.

(** ** The decoder: names, pointers and the cache *)

Section DecoderNames.
Implicit Types (frame : slice) (head : nat) (cache : labelCache) (rest : list byte).

(** Literal labels followed by the zero byte, with the cache spelled
    out: each label is recorded at the offset of its length byte. *)
Lemma decodeLabels_loop_literals fuel frame head cache labels acc rest :
  Forall literal_label labels →
  length labels < fuel →
  reads frame head (flat_map wire_label labels ++ 0%Z :: rest) →
  decodeLabels_loop fuel frame head cache acc
  = Ok (acc ++ labels, head + length (flat_map wire_label labels) + 1,
        record_name cache head labels).
Proof.
  revert fuel head cache acc.
  induction labels as [|l labels IH]; intros fuel head cache acc Hv Hfuel Hr;
    (destruct fuel as [|fuel]; [simpl in Hfuel; lia|]); cbn [decodeLabels_loop].
  - simpl in Hr. rewrite (reads_index _ _ _ _ Hr). simpl.
    rewrite app_nil_r. do 3 f_equal. lia.
  - apply Forall_cons in Hv as [[Hl1 Hl2] Hv]. simpl in Hr.
    rewrite (reads_index _ _ _ _ Hr). simpl.
    rewrite decide_False by lia. rewrite decide_False by lia.
    apply reads_cons in Hr. rewrite <- app_assoc in Hr.
    rewrite Nat2Z.id, (reads_extractBytes _ _ _ _ Hr). simpl.
    apply reads_app in Hr.
    rewrite (IH fuel (head + 1 + length l) (record cache head l) (acc ++ [l]) Hv);
      [|simpl in Hfuel; lia|exact Hr].
    rewrite <- app_assoc. simpl. rewrite length_app. simpl. do 3 f_equal. lia.
Qed.

Lemma decodeLabels_literals frame head cache labels rest :
  Forall literal_label labels →
  reads frame head (wire_name labels ++ rest) →
  decodeLabels frame head cache
  = Ok (labels, head + length (wire_name labels), record_name cache head labels).
Proof.
  intros Hv Hr. unfold wire_name in Hr. rewrite <- app_assoc in Hr. simpl in Hr.
  pose proof (reads_length _ _ _ Hr) as Hlen. rewrite length_app in Hlen.
  pose proof (wire_label_length labels).
  unfold decodeLabels.
  rewrite (decodeLabels_loop_literals (S (slen frame)) frame head cache labels [] rest Hv);
    [|lia|exact Hr].
  unfold wire_name. rewrite length_app. simpl. do 3 f_equal. lia.
Qed.

Lemma encodable_nonempty_literal labels :
  encodable labels → Forall (λ l, l ≠ []) labels → Forall literal_label labels.
Proof.
  intros [Hle _] Hne. apply Forall_forall. intros l Hl.
  rewrite Forall_forall in Hle. rewrite Forall_forall in Hne.
  specialize (Hle l Hl). specialize (Hne l Hl). simpl in Hle.
  unfold literal_label. destruct l; [done|]. simpl in *. lia.
Qed.

(** X11. What [encodeLabelSequence] returns for labels none of which is
    empty is decoded back to those labels by [decodeLabels], wherever the
    bytes stand in a frame and whatever the cache holds; the cursor ends
    just behind the closing zero, and each label is recorded in the cache
    at the offset where its length byte stands. *)
Theorem decodeLabels_encodeLabelSequence (labels : list label) (enc : list byte)
    (frame : slice) (head : nat) (cache : labelCache) (rest : list byte) :
  encodeLabelSequence labels = Ok enc →
  Forall (λ l, l ≠ []) labels →
  reads frame head (enc ++ rest) →
  decodeLabels frame head cache
  = Ok (labels, head + length enc, record_name cache head labels).
Proof.
  intros [-> He]%encodeLabelSequence_inv Hne Hr.
  apply (decodeLabels_literals frame head cache labels rest); [|done].
  by apply encodable_nonempty_literal.
Qed.

(** X12. The encoder accepts an empty label, whose length byte is the
    zero that ends a name: the bytes of such a name are decoded to the
    labels before the empty one, and the cursor stops behind that zero,
    in front of the bytes of the labels that follow. *)
Theorem decodeLabels_stops_at_empty_label (before after : list label) (enc : list byte)
    (frame : slice) (head : nat) (cache : labelCache) (rest : list byte) :
  encodeLabelSequence (before ++ [] :: after) = Ok enc →
  Forall (λ l, l ≠ []) before →
  reads frame head (enc ++ rest) →
  enc = wire_name before ++ wire_name after
  ∧ decodeLabels frame head cache
    = Ok (before, head + length (wire_name before), record_name cache head before).
Proof.
  intros [-> He]%encodeLabelSequence_inv Hne Hr.
  assert (Hsplit : wire_name (before ++ [] :: after) = wire_name before ++ wire_name after).
  { unfold wire_name. rewrite flat_map_app. simpl. by rewrite <- !app_assoc. }
  split; [done|]. rewrite Hsplit, <- app_assoc in Hr.
  apply (decodeLabels_literals frame head cache before (wire_name after ++ rest)); [|done].
  apply encodable_nonempty_literal; [|done].
  destruct He as [Hle Hlen]. apply Forall_app in Hle as [Hle _]. split; [done|].
  rewrite Hsplit, length_app in Hlen. lia.
Qed.

(** The cache after recording a name. *)
Lemma record_name_lookup_lt cache head labels pos :
  pos < head →
  positionMap (record_name cache head labels) !! pos = positionMap cache !! pos.
Proof.
  revert cache head. induction labels as [|l labels IH]; intros cache head Hlt; [done|].
  simpl. rewrite IH by lia. unfold record. simpl. by rewrite lookup_insert_ne by lia.
Qed.

Lemma record_name_below cache head labels :
  recorded_below cache head →
  recorded_below (record_name cache head labels)
    (head + length (flat_map wire_label labels)).
Proof.
  revert cache head. induction labels as [|l labels IH]; intros cache head Hb.
  - simpl. intros pos x Hx. specialize (Hb pos x Hx). lia.
  - simpl. rewrite length_app. simpl.
    replace (head + S (length l + length (flat_map wire_label labels)))
      with (head + 1 + length l + length (flat_map wire_label labels)) by lia.
    apply IH. intros pos x. unfold record. simpl. rewrite lookup_insert.
    case_decide; [lia|]. intros Hx. specialize (Hb pos x Hx). lia.
Qed.

(** From the offset of its [k]-th label, the chain through a recorded
    name is the rest of the name. *)
Lemma chain_record_name cache head labels k :
  recorded_below cache head →
  k ≤ length labels →
  chain (record_name cache head labels)
    (head + length (flat_map wire_label (take k labels))) (drop k labels).
Proof.
  revert cache head k. induction labels as [|l labels IH]; intros cache head k Hb Hk.
  - simpl in Hk. replace k with 0 by lia. simpl. apply chain_end.
    destruct (positionMap cache !! (head + 0)) as [x|] eqn:Hx; [|done].
    specialize (Hb _ _ Hx). lia.
  - assert (Hb' : recorded_below (record cache head l) (head + 1 + length l)).
    { intros pos x. unfold record. simpl. rewrite lookup_insert.
      case_decide; [lia|]. intros Hx. specialize (Hb pos x Hx). lia. }
    destruct k as [|k].
    + simpl. rewrite Nat.add_0_r. apply chain_step.
      * rewrite record_name_lookup_lt by lia. unfold record. simpl.
        by rewrite lookup_insert_eq.
      * specialize (IH (record cache head l) (head + 1 + length l) 0 Hb' ltac:(lia)).
        simpl in IH. rewrite Nat.add_0_r in IH.
        replace (head + (length l + 1)) with (head + 1 + length l) by lia. exact IH.
    + simpl in Hk. specialize (IH (record cache head l) (head + 1 + length l) k Hb' ltac:(lia)).
      simpl. rewrite length_app. simpl.
      replace (head + S (length l + length (flat_map wire_label (take k labels))))
        with (head + 1 + length l + length (flat_map wire_label (take k labels))) by lia.
      exact IH.
Qed.

(** A chain is the same in every cache that agrees on the offsets it
    visits. *)
Lemma chain_agree cache cache' head ls :
  chain cache head ls →
  (∀ pos, pos ≤ head + length (flat_map wire_label ls) →
          positionMap cache' !! pos = positionMap cache !! pos) →
  chain cache' head ls.
Proof.
  intros Hc. induction Hc as [head Hn|head l ls Hs _ IH]; intros Hag.
  - apply chain_end. rewrite Hag; [done|lia].
  - apply chain_step.
    + rewrite Hag; [done|lia].
    + apply IH. intros pos Hpos. apply Hag. simpl. rewrite length_app. simpl. lia.
Qed.

Lemma allSubsequentLabels_chain cache head ls :
  chain cache head ls → allSubsequentLabels cache head = Some ls.
Proof.
  intros Hc. pose proof (from_size (positionMap cache) head).
  destruct (allSubsequentLabels_loop_enough (S (size (positionMap cache))) cache head [])
    as (ls' & Hrun & Hc' & _); [lia|].
  unfold allSubsequentLabels. rewrite Hrun. simpl. f_equal.
  by eapply chain_functional.
Qed.

(** Literal labels followed by a pointer. *)
Lemma decodeLabels_loop_literals_pointer fuel frame head cache labels acc rest p refs :
  Forall literal_label labels →
  length labels < fuel →
  reads frame head (flat_map wire_label labels ++ 192%Z :: p :: rest) →
  allSubsequentLabels (record_name cache head labels) (Z.to_nat p) = Some refs →
  refs ≠ [] →
  decodeLabels_loop fuel frame head cache acc
  = Ok (acc ++ labels ++ refs, head + length (flat_map wire_label labels) + 2,
        record_name cache head labels).
Proof.
  revert fuel head cache acc.
  induction labels as [|l labels IH]; intros fuel head cache acc Hv Hfuel Hr Hrefs Hne;
    (destruct fuel as [|fuel]; [simpl in Hfuel; lia|]); cbn [decodeLabels_loop].
  - simpl in Hr. rewrite (reads_index _ _ _ _ Hr). simpl.
    apply reads_cons in Hr. rewrite (reads_index _ _ _ _ Hr). simpl.
    simpl in Hrefs. rewrite Hrefs. rewrite decide_False by (by destruct refs).
    do 3 f_equal. lia.
  - apply Forall_cons in Hv as [[Hl1 Hl2] Hv]. simpl in Hr.
    rewrite (reads_index _ _ _ _ Hr). simpl.
    rewrite decide_False by lia. rewrite decide_False by lia.
    apply reads_cons in Hr. rewrite <- app_assoc in Hr.
    rewrite Nat2Z.id, (reads_extractBytes _ _ _ _ Hr). simpl.
    apply reads_app in Hr.
    rewrite (IH fuel (head + 1 + length l) (record cache head l) (acc ++ [l]) Hv);
      [|simpl in Hfuel; lia|exact Hr|exact Hrefs|exact Hne].
    rewrite <- app_assoc. simpl. rewrite length_app. simpl. do 3 f_equal. lia.
Qed.
End DecoderNames.

Section Compression.
Implicit Types (frame : slice) (head : nat) (cache : labelCache) (rest : list byte).

Lemma emptyCache_below head : recorded_below emptyCache head.
Proof. intros pos l. unfold emptyCache. simpl. by rewrite lookup_empty. Qed.

Lemma take_drop_wire_length (labels : list label) k :
  length (flat_map wire_label (take k labels)) + length (flat_map wire_label (drop k labels))
  = length (flat_map wire_label labels).
Proof.
  rewrite <- length_app, <- flat_map_app. by rewrite take_drop.
Qed.

(** X13. Compression as the decoder supports it.  In a frame of two
    questions where the first name is written out and the second is some
    labels written out followed by a pointer to the offset (below 256) of
    one of the labels of the first name, [deserialize] returns the first
    name as written and, for the second, its own labels followed by the
    labels of the first name from the one pointed at to the end. *)
Theorem deserialize_compressed_name (hdr : header) (labels pre : list label) (k : nat)
    (t1 c1 t2 c2 : vec byte 2) (sp : list byte) :
  QDCOUNT hdr = 2%Z → ANCOUNT hdr = 0%Z →
  Forall literal_label labels → Forall literal_label pre →
  k < length labels →
  12 + length (flat_map wire_label (take k labels)) < 256 →
  ∃ m,
    deserialize
      (Slice (vec_to_list hdr
                ++ wire_name labels ++ vec_to_list t1 ++ vec_to_list c1
                ++ flat_map wire_label pre
                ++ [192%Z; Z.of_nat (12 + length (flat_map wire_label (take k labels)))]
                ++ vec_to_list t2 ++ vec_to_list c2) sp) = Ok m
    ∧ m_header m = hdr
    ∧ m_question m = [Question labels t1 c1; Question (pre ++ drop k labels) t2 c2]
    ∧ m_answer m = [].
Proof.
  intros Hqd Han Hlabels Hpre Hk Htarget.
  set (target := 12 + length (flat_map wire_label (take k labels))) in *.
  set (frame := Slice _ sp).
  assert (Hr : reads frame 12
                 (wire_name labels ++ vec_to_list t1 ++ vec_to_list c1
                    ++ flat_map wire_label pre ++ 192%Z :: Z.of_nat target
                    :: (vec_to_list t2 ++ vec_to_list c2 ++ []))).
  { exists (vec_to_list hdr). split; [|apply length_vec_to_list].
    unfold frame. cbn [elems]. by rewrite app_nil_r. }
  set (cache1 := record_name emptyCache 12 labels).
  set (head2 := 12 + length (wire_name labels) + 2 + 2).
  assert (Hend : 12 + length (flat_map wire_label labels) < head2).
  { unfold head2, wire_name. rewrite length_app. simpl. lia. }
  assert (Hrefs : allSubsequentLabels (record_name cache1 head2 pre)
                    (Z.to_nat (Z.of_nat target)) = Some (drop k labels)).
  { rewrite Nat2Z.id. apply allSubsequentLabels_chain.
    apply (chain_agree cache1).
    - apply chain_record_name; [apply emptyCache_below|lia].
    - intros pos Hpos. apply record_name_lookup_lt.
      pose proof (take_drop_wire_length labels k). unfold target in Hpos. lia. }
  assert (Hne : drop k labels ≠ []).
  { intros Hnil. apply (f_equal length) in Hnil. rewrite length_drop in Hnil.
    simpl in Hnil. lia. }
  exists {| m_cache := Some (record_name cache1 head2 pre); m_header := hdr;
            m_question := [Question labels t1 c1; Question (pre ++ drop k labels) t2 c2];
            m_answer := []; m_authority := []; m_additional := [] |}.
  split; [|done].
  unfold deserialize. unfold frame at 1. rewrite copy_header_wire.
  rewrite decide_False by lia. fold frame.
  rewrite Hqd, Han. change (Z.to_nat 2) with 2. change (Z.to_nat 0) with 0.
  cbn [decodeQuestions decodeAnswers].
  rewrite (decodeLabels_literals frame 12 emptyCache labels _ Hlabels Hr).
  cbn [mbind outcome_bind obind]. fold cache1.
  apply reads_app in Hr. rewrite (reads_extractUint16 _ _ _ _ Hr).
  cbn [mbind outcome_bind obind].
  apply reads_app in Hr. rewrite length_vec_to_list in Hr.
  rewrite (reads_extractUint16 _ _ _ _ Hr). cbn [mbind outcome_bind obind].
  apply reads_app in Hr. rewrite length_vec_to_list in Hr. fold head2 in Hr |- *.
  pose proof (reads_length _ _ _ Hr) as Hlen. rewrite length_app in Hlen.
  pose proof (wire_label_length pre).
  unfold decodeLabels.
  rewrite (decodeLabels_loop_literals_pointer (S (slen frame)) frame head2 cache1 pre []
             _ _ (drop k labels) Hpre ltac:(lia) Hr Hrefs Hne).
  cbn [mbind outcome_bind obind app].
  apply reads_app in Hr. apply reads_cons in Hr. apply reads_cons in Hr.
  replace (head2 + length (flat_map wire_label pre) + 1 + 1)
    with (head2 + length (flat_map wire_label pre) + 2) in Hr by lia.
  rewrite (reads_extractUint16 _ _ _ _ Hr). cbn [mbind outcome_bind obind].
  apply reads_app in Hr. rewrite length_vec_to_list in Hr.
  rewrite (reads_extractUint16 _ _ _ _ Hr). cbn [mbind outcome_bind obind app].
  reflexivity.
Qed.

(** X14. At a pointer, [decodeLabels] looks only at the position map: when
    no label is recorded at the target (always so in the first name of a
    frame, and for every target inside the header or ahead of the cursor)
    it returns the invalid-reference error with the target byte; when one
    is, it returns the labels decoded so far followed by the chain of
    recorded labels from the target, moves the cursor 2 bytes on, and
    leaves the cache as it was. *)
Theorem decodeLabels_at_pointer (fuel : nat) (frame : slice) (head : nat)
    (cache : labelCache) (labels : list label) (p : byte) :
  index frame head = Ok 192%Z →
  index frame (head + 1) = Ok p →
  (positionMap cache !! Z.to_nat p = None →
     decodeLabels_loop (S fuel) frame head cache labels = Err (InvalidLabelReference p))
  ∧ (∀ l, positionMap cache !! Z.to_nat p = Some l →
       ∃ refs, chain cache (Z.to_nat p) (l :: refs)
               ∧ decodeLabels_loop (S fuel) frame head cache labels
                 = Ok (labels ++ l :: refs, head + 2, cache)).
Proof.
  intros Hb Hp. rewrite (decodeLabels_loop_pointer _ _ _ _ _ _ Hb Hp). unfold pointer_step.
  pose proof (from_size (positionMap cache) (Z.to_nat p)) as Hsz.
  destruct (allSubsequentLabels_loop_enough (S (size (positionMap cache))) cache
              (Z.to_nat p) []) as (ls & Hrun & Hchain & _); [lia|].
  unfold allSubsequentLabels. rewrite Hrun. simpl. split.
  - intros Hnone. inversion Hchain as [? _|? l ls' Hs _]; subst; [done|congruence].
  - intros l Hl. inversion Hchain as [? Hn|? l' ls' Hs Hc]; subst; [congruence|].
    assert (l' = l) as -> by congruence.
    exists ls'. split; [by apply chain_step|]. done.
Qed.
End Compression.

(** ** The decoder: what lies behind the frame, and the size of labels *)

Section Capacity.
Implicit Types (e sp : list byte) (head : nat) (cache : labelCache).

Lemma unless_refl {A} (o : outcome A) : unless_out_of_capacity o o.
Proof. by right. Qed.

Lemma unless_bind {A B} (o o' : outcome A) (k k' : A → outcome B) :
  unless_out_of_capacity o o' →
  (∀ a, unless_out_of_capacity (k a) (k' a)) →
  unless_out_of_capacity (o ≫= k) (o' ≫= k').
Proof.
  intros [->| ->] Hk; [by left|].
  destruct o as [a| | |]; cbn [mbind outcome_bind obind]; [apply Hk|by right..].
Qed.

Lemma extractBytes_spare e sp head n :
  unless_out_of_capacity (extractBytes (Slice e []) head n) (extractBytes (Slice e sp) head n).
Proof.
  unfold extractBytes, reslice, scap. cbn [elems spare].
  destruct (decide (head ≤ head + n ∧ head + n ≤ length e + length (@nil byte)))
    as [[_ Hin]|Hout]; [|by left].
  right. simpl in Hin. rewrite decide_True by lia. cbn [mbind outcome_bind obind].
  rewrite app_nil_r, drop_app_le by lia.
  rewrite take_app_le; [done|]. rewrite length_drop. lia.
Qed.

Lemma decodeLabels_loop_spare fuel e sp head cache labels :
  unless_out_of_capacity (decodeLabels_loop fuel (Slice e []) head cache labels)
                         (decodeLabels_loop fuel (Slice e sp) head cache labels).
Proof.
  revert head cache labels. induction fuel as [|fuel IH]; intros head cache labels;
    [apply unless_refl|].
  cbn [decodeLabels_loop]. apply unless_bind; [apply unless_refl|]. intros b.
  case_decide; [apply unless_refl|]. case_decide; [apply unless_refl|].
  apply unless_bind; [apply extractBytes_spare|]. intros [l h']. apply IH.
Qed.

Lemma decodeQuestions_spare count e sp head cache qs :
  unless_out_of_capacity (decodeQuestions count (Slice e []) head cache qs)
                         (decodeQuestions count (Slice e sp) head cache qs).
Proof.
  revert head cache qs. induction count as [|count IH]; intros head cache qs;
    [apply unless_refl|].
  cbn [decodeQuestions].
  apply unless_bind; [apply decodeLabels_loop_spare|]. intros [[ls h1] c1].
  apply unless_bind; [apply unless_refl|]. intros [[qt ?] h2].
  apply unless_bind; [apply unless_refl|]. intros [[qc ?] h3]. apply IH.
Qed.

Lemma decodeAnswers_spare count e sp head cache rrs :
  unless_out_of_capacity (decodeAnswers count (Slice e []) head cache rrs)
                         (decodeAnswers count (Slice e sp) head cache rrs).
Proof.
  revert head cache rrs. induction count as [|count IH]; intros head cache rrs;
    [apply unless_refl|].
  cbn [decodeAnswers].
  apply unless_bind; [apply decodeLabels_loop_spare|]. intros [[ls h1] c1].
  apply unless_bind; [apply unless_refl|]. intros [[ty ?] h2].
  apply unless_bind; [apply unless_refl|]. intros [[cl ?] h3].
  apply unless_bind; [apply unless_refl|]. intros [ttl h4].
  apply unless_bind; [apply unless_refl|]. intros [[rl rdl] h5].
  apply unless_bind; [apply extractBytes_spare|]. intros [rd h6]. apply IH.
Qed.

(** X16. What lies in the buffer behind a frame matters to [deserialize]
    only through a label or a record's data whose declared length runs
    past the end of the frame: unless decoding the frame alone, with no
    capacity behind it, panics on such a slice, decoding it with any bytes
    behind it gives the same message, error or panic. *)
Theorem deserialize_spare (e sp : list byte) :
  deserialize (Slice e []) = Panic SliceBoundsOutOfRange
  ∨ deserialize (Slice e sp) = deserialize (Slice e []).
Proof.
  change (unless_out_of_capacity (deserialize (Slice e [])) (deserialize (Slice e sp))).
  unfold deserialize, copy_header, slen. cbn [elems]. cbv zeta.
  case_decide; [apply unless_refl|].
  apply unless_bind; [apply decodeQuestions_spare|]. intros [[qs h1] c1].
  apply unless_bind; [apply decodeAnswers_spare|]. intros [[rrs h2] c2].
  apply unless_refl.
Qed.
End Capacity.

Section LabelSizes.
Implicit Types (frame : slice) (head : nat) (cache : labelCache).

Lemma allSubsequentLabels_loop_sized fuel cache head acc ls :
  sized_cache cache → Forall sized_label acc →
  allSubsequentLabels_loop fuel cache head acc = Some ls → Forall sized_label ls.
Proof.
  intros Hc. revert head acc. induction fuel as [|fuel IH]; intros head acc Hacc H; [done|].
  simpl in H. destruct (positionMap cache !! head) as [l|] eqn:Hl.
  - eapply IH; [|exact H]. apply Forall_app. split; [done|].
    apply Forall_cons. split; [by eapply Hc|apply Forall_nil_2].
  - by injection H as <-.
Qed.

Lemma decodeLabels_loop_sized fuel frame head cache labels ls head' cache' :
  Forall is_byte (elems frame) →
  sized_cache cache → Forall sized_label labels →
  decodeLabels_loop fuel frame head cache labels = Ok (ls, head', cache') →
  Forall sized_label ls ∧ sized_cache cache'.
Proof.
  intros Hbytes. revert head cache labels.
  induction fuel as [|fuel IH]; intros head cache labels Hc Hl H; [done|].
  cbn [decodeLabels_loop] in H. bind_inv H.
  pose proof (index_is_byte _ _ _ Hbytes Ha) as [Hb0 Hb1].
  case_decide as Hz; [by injection H as <- _ <-|].
  case_decide as Hp.
  - bind_inv H. destruct (allSubsequentLabels cache (Z.to_nat a0)) as [refs|] eqn:Hrefs; [|done].
    case_decide; [done|]. injection H as <- _ <-. split; [|done].
    apply Forall_app. split; [done|].
    eapply allSubsequentLabels_loop_sized; [exact Hc|apply Forall_nil_2|exact Hrefs].
  - bind_inv H. destruct a0 as [l h1].
    apply extractBytes_Ok in Ha0 as (-> & _ & Hlen & _).
    assert (Hs : sized_label l) by (unfold sized_label; lia).
    eapply IH; [| |exact H].
    + intros pos x. unfold record. simpl. rewrite lookup_insert.
      case_decide; [by intros [= <-]|apply Hc].
    + apply Forall_app. split; [done|]. apply Forall_cons. split; [done|apply Forall_nil_2].
Qed.

Lemma decodeQuestions_sized count frame head cache qs qs' head' cache' :
  Forall is_byte (elems frame) →
  sized_cache cache → Forall (λ q, Forall sized_label (QNAME q)) qs →
  decodeQuestions count frame head cache qs = Ok (qs', head', cache') →
  Forall (λ q, Forall sized_label (QNAME q)) qs' ∧ sized_cache cache'.
Proof.
  intros Hbytes. revert head cache qs.
  induction count as [|count IH]; intros head cache qs Hc Hqs H; cbn [decodeQuestions] in H.
  - by injection H as <- _ <-.
  - bind_inv H. destruct a as [[ls h1] c1]. bind_inv H. destruct a as [[qt ?] h2].
    bind_inv H. destruct a as [[qc ?] h3].
    destruct (decodeLabels_loop_sized _ _ _ _ _ _ _ _ Hbytes Hc (Forall_nil_2 _) Ha)
      as [Hls Hc1].
    eapply IH; [exact Hc1| |exact H].
    apply Forall_app. split; [done|]. apply Forall_cons. split; [done|apply Forall_nil_2].
Qed.

Lemma decodeAnswers_sized count frame head cache rrs rrs' head' cache' :
  Forall is_byte (elems frame) →
  sized_cache cache → Forall (λ a, Forall sized_label (NAME a)) rrs →
  decodeAnswers count frame head cache rrs = Ok (rrs', head', cache') →
  Forall (λ a, Forall sized_label (NAME a)) rrs' ∧ sized_cache cache'.
Proof.
  intros Hbytes. revert head cache rrs.
  induction count as [|count IH]; intros head cache rrs Hc Hrrs H; cbn [decodeAnswers] in H.
  - by injection H as <- _ <-.
  - bind_inv H. destruct a as [[ls h1] c1]. bind_inv H. destruct a as [[ty ?] h2].
    bind_inv H. destruct a as [[cl ?] h3]. bind_inv H. destruct a as [ttl h4].
    bind_inv H. destruct a as [[rl rdl] h5]. bind_inv H. destruct a as [rd h6].
    destruct (decodeLabels_loop_sized _ _ _ _ _ _ _ _ Hbytes Hc (Forall_nil_2 _) Ha)
      as [Hls Hc1].
    eapply IH; [exact Hc1| |exact H].
    apply Forall_app. split; [done|]. apply Forall_cons. split; [done|apply Forall_nil_2].
Qed.

(** X17. Every label of every name of a decoded message, whether read
    from the frame or reached through a pointer, has between 1 and 255
    bytes: the decoder produces no empty label, and sets no limit below
    what a length byte can say. *)
Theorem deserialize_label_sizes (frame : slice) (m : message) :
  Forall is_byte (elems frame) →
  deserialize frame = Ok m →
  Forall (λ q, Forall sized_label (QNAME q)) (m_question m)
  ∧ Forall (λ a, Forall sized_label (NAME a)) (m_answer m).
Proof.
  intros Hbytes (_ & _ & _ & _ & h1 & c1 & h2 & c2 & Hq & Ha & _)%deserialize_Ok.
  assert (H0 : sized_cache emptyCache).
  { intros pos l. unfold emptyCache. simpl. by rewrite lookup_empty. }
  destruct (decodeQuestions_sized _ _ _ _ _ _ _ _ Hbytes H0 (Forall_nil_2 _) Hq) as [Hqs Hc1].
  destruct (decodeAnswers_sized _ _ _ _ _ _ _ _ Hbytes Hc1 (Forall_nil_2 _) Ha) as [Hrrs _].
  done.
Qed.

Lemma deserialize_pointer_at_12 (frame : slice) (p : byte) :
  (1 ≤ QDCOUNT (copy_header frame).1)%Z →
  elems frame !! 12 = Some 192%Z →
  elems frame !! 13 = Some p →
  deserialize frame = Err (InvalidLabelReference p).
Proof.
  intros Hqd H12 H13. pose proof (lookup_lt_Some _ _ _ H13) as Hlen.
  unfold deserialize. destruct (copy_header frame) as [hdr copied] eqn:Hc.
  assert (copied = min 12 (slen frame)) as -> by (unfold copy_header in Hc; congruence).
  unfold slen. rewrite decide_False by lia. simpl in Hqd.
  destruct (Z.to_nat (QDCOUNT hdr)) as [|count] eqn:Hcount; [lia|].
  cbn [decodeQuestions]. unfold decodeLabels. cbn [decodeLabels_loop].
  unfold index. rewrite H12. cbn [mbind outcome_bind obind].
  rewrite decide_False by done. rewrite decide_True by done.
  change (12 + 1) with 13. rewrite H13. cbn [mbind outcome_bind obind].
  reflexivity.
Qed.

(** X15. A frame whose header announces a question and whose first name
    begins with a pointer is refused with the invalid-reference error,
    whatever the pointer's target: nothing is recorded before the first
    name. *)
Theorem deserialize_leading_pointer (hdr : header) (p : byte) (rest sp : list byte) :
  (1 ≤ QDCOUNT hdr)%Z →
  deserialize (Slice (vec_to_list hdr ++ 192%Z :: p :: rest) sp)
  = Err (InvalidLabelReference p).
Proof.
  intros Hqd. apply deserialize_pointer_at_12.
  - by rewrite copy_header_wire.
  - cbn [elems]. rewrite lookup_app_r; rewrite length_vec_to_list; [done|lia].
  - cbn [elems]. rewrite lookup_app_r; rewrite length_vec_to_list; [done|lia].
Qed.
End LabelSizes.

(** ** Building the response *)

Section Response.
Local Open Scope nat_scope.

Lemma copyQuestions_map count i initial questions :
  i + count ≤ length initial →
  copyQuestions count i initial questions
  = Ok (questions ++ ((λ q, question_of (QNAME q)) <$> take count (drop i initial))).
Proof.
  revert i questions.
  induction count as [|count IH]; intros i questions Hlen; cbn [copyQuestions].
  - by rewrite take_0, app_nil_r.
  - destruct (initial !! i) as [q|] eqn:Hq; [|apply lookup_ge_None in Hq; lia].
    rewrite IH by lia. rewrite (drop_S _ _ _ Hq), firstn_cons, fmap_cons.
    by rewrite <- app_assoc.
Qed.

Lemma copyQuestions_panic count i initial questions :
  i ≤ length initial →
  length initial < i + count →
  copyQuestions count i initial questions = Panic IndexOutOfRange.
Proof.
  revert i questions.
  induction count as [|count IH]; intros i questions Hi Hlen; cbn [copyQuestions]; [lia|].
  destruct (initial !! i) as [q|] eqn:Hq.
  - apply lookup_lt_Some in Hq. apply IH; lia.
  - done.
Qed.

(** X18. [createResponseMessage] copies the name of each of the first
    QDCOUNT questions of the request, in order, and gives every copy the
    type A and the class IN whatever the request asked for; the answer
    section starts empty.  When QDCOUNT is more than the questions the
    message holds it panics on the index; that does not happen to a
    message that [deserialize] returned. *)
Theorem createResponseMessage_questions (request : message) :
  (Z.to_nat (QDCOUNT (m_header request)) ≤ length (m_question request) →
     ∃ response,
       createResponseMessage request = Ok response
       ∧ m_question response
         = (λ q, question_of (QNAME q))
             <$> take (Z.to_nat (QDCOUNT (m_header request))) (m_question request)
       ∧ m_answer response = [] ∧ m_authority response = [] ∧ m_additional response = []
       ∧ m_cache response = None)
  ∧ (length (m_question request) < Z.to_nat (QDCOUNT (m_header request)) →
       createResponseMessage request = Panic IndexOutOfRange)
  ∧ (∀ frame, deserialize frame = Ok request →
       ∃ response,
         createResponseMessage request = Ok response
         ∧ m_question response = (λ q, question_of (QNAME q)) <$> m_question request).
Proof.
  assert (Hok : Z.to_nat (QDCOUNT (m_header request)) ≤ length (m_question request) →
     ∃ response,
       createResponseMessage request = Ok response
       ∧ m_question response
         = (λ q, question_of (QNAME q))
             <$> take (Z.to_nat (QDCOUNT (m_header request))) (m_question request)
       ∧ m_answer response = [] ∧ m_authority response = [] ∧ m_additional response = []
       ∧ m_cache response = None).
  { intros Hle. unfold createResponseMessage.
    rewrite copyQuestions_map by lia. cbn [mbind outcome_bind obind app drop].
    eexists. split; [reflexivity|]. by repeat split. }
  split; [exact Hok|]. split.
  - intros Hlt. unfold createResponseMessage. by rewrite copyQuestions_panic by lia.
  - intros frame [Hq _]%deserialize_counts.
    destruct Hok as (response & Hr & Hqs & _); [lia|].
    exists response. split; [done|]. rewrite Hqs, <- Hq. by rewrite firstn_all.
Qed.

Lemma staticAnswers_map count i questions answers :
  i + count ≤ length questions →
  staticAnswers count i questions answers
  = Ok (answers ++ ((λ q, static_answer (QNAME q)) <$> take count (drop i questions))).
Proof.
  revert i answers.
  induction count as [|count IH]; intros i answers Hlen; cbn [staticAnswers].
  - by rewrite take_0, app_nil_r.
  - destruct (questions !! i) as [q|] eqn:Hq; [|apply lookup_ge_None in Hq; lia].
    rewrite IH by lia. rewrite (drop_S _ _ _ Hq), firstn_cons, fmap_cons.
    by rewrite <- app_assoc.
Qed.



(** X26. [setData] stores the data and writes its length into RDLENGTH
    as 16 bits: the field agrees with the data for fewer than 65536
    bytes and wraps around beyond; the other fields stay. *)
Theorem setData_length (data : list byte) (rr : RR) :
  Uint16 (RDLENGTH (setData data rr)) = (Z.of_nat (length data) `mod` 65536)%Z
  ∧ RDATA (setData data rr) = data
  ∧ NAME (setData data rr) = NAME rr ∧ TYPE (setData data rr) = TYPE rr
  ∧ CLASS (setData data rr) = CLASS rr ∧ TTL (setData data rr) = TTL rr.
Proof.
  unfold setData. cbn [RDLENGTH RDATA NAME TYPE CLASS TTL].
  rewrite Uint16_PutUint16. unfold uint16. rewrite Z.mod_mod by lia. done.
Qed.
End Response.

(** ** One turn of the loop, static mode *)

Section StaticTurn.

(** The bytes of a valid message, decoded. *)
Lemma deserialize_layout (m : message) (sp : list byte) :
  valid_message m →
  ∃ cache,
    deserialize (Slice (vec_to_list (m_header m) ++ flat_map wire_question (m_question m)
                          ++ flat_map wire_RR (m_answer m)) sp)
    = Ok {| m_cache := Some cache; m_header := m_header m; m_question := m_question m;
            m_answer := m_answer m; m_authority := []; m_additional := [] |}.
Proof.
  intros (Hq & Ha & Hqd & Han & _ & _).
  set (frame := Slice _ sp).
  assert (Hr : reads frame 12 (flat_map wire_question (m_question m)
                                 ++ flat_map wire_RR (m_answer m) ++ [])).
  { exists (vec_to_list (m_header m)). split; [|apply length_vec_to_list].
    unfold frame. simpl. by rewrite app_nil_r. }
  assert (Hq' : Forall (λ q, Forall literal_label (QNAME q)) (m_question m)).
  { eapply Forall_impl; [exact Hq|]. intros q. apply valid_name_literal. }
  assert (Ha' : Forall (λ a, Forall literal_label (NAME a)
                  ∧ Uint16 (RDLENGTH a) = Z.of_nat (length (RDATA a))) (m_answer m)).
  { eapply Forall_impl; [exact Ha|]. intros a [Hn Hrd]. split; [|done].
    by apply valid_name_literal. }
  destruct (decodeQuestions_wire frame 12 emptyCache _ [] _ Hq' Hr) as (c1 & Hdq).
  apply reads_app in Hr.
  destruct (decodeAnswers_wire frame _ c1 _ [] _ Ha' Hr) as (h2 & c2 & Hda).
  exists c2. unfold deserialize. subst frame. rewrite copy_header_wire.
  rewrite decide_False by lia.
  rewrite Hqd, Nat2Z.id, Hdq. cbn [mbind outcome_bind obind].
  rewrite Han, Nat2Z.id, Hda. reflexivity.
Qed.

Lemma static_answer_valid name : valid_name name → valid_RR (static_answer name).
Proof. intros H. split; [done|reflexivity]. Qed.

(** X20. In static mode, a frame of at most 512 bytes that decodes to a
    request whose question names are within the limits of the encoder is
    answered; the reply decodes to a message with the request's
    transaction id, QR = 1, RCODE 0 for OPCODE 0 and 4 for any other,
    the request's question names with type A and class IN, and, for any
    OPCODE, one A record with TTL 60 and the address 8.8.8.8 for each
    question, owned by its name. *)
Theorem static_turn_replies (frame : slice) (request : message) (n : nat) (sp : list byte) :
  slen frame ≤ 512 →
  deserialize frame = Ok request →
  Forall (λ q, valid_name (QNAME q)) (m_question request) →
  ∃ bytes reply,
    handleDatagram None frame n = Ok bytes
    ∧ deserialize (Slice bytes sp) = Ok reply
    ∧ id (m_header reply) = id (m_header request)
    ∧ QR (m_header reply) = 1%Z
    ∧ RCODE (m_header reply)
      = (if decide (OPCODE (m_header request) = QUERY) then 0 else 4)%Z
    ∧ m_question reply = (λ q, question_of (QNAME q)) <$> m_question request
    ∧ m_answer reply = (λ q, static_answer (QNAME q)) <$> m_question request.
Proof.
  intros Hlen Hdec Hvalid.
  destruct (createResponseMessage_decoded _ _ Hlen Hdec)
    as (skel & Hskel & Hqd & Hnq & Han & Hau & Had & _ & _).
  assert (Hqs : m_question skel = (λ q, question_of (QNAME q)) <$> m_question request).
  { destruct (deserialize_counts _ _ Hdec) as [Hq _].
    revert Hskel. unfold createResponseMessage. rewrite copyQuestions_map by lia.
    cbn [mbind outcome_bind obind app drop]. intros [= <-]. cbn [m_question].
    rewrite <- Hq. by rewrite firstn_all. }
  destruct (createResponseMessage_QR_RCODE _ _ Hskel) as [Hqr Hrc].
  assert (Hid : id (m_header skel) = id (m_header request)).
  { revert Hskel. unfold createResponseMessage. intros H. bind_inv H. injection H as <-.
    cbn [m_header]. unfold id, setQDCOUNT. rewrite get16_put16_ne by done.
    unfold get16. by rewrite !responseHeader_other by done. }
  set (answers := (λ q, static_answer (QNAME q)) <$> m_question skel).
  set (response :=
         {| m_cache := m_cache skel;
            m_header := setANCOUNT (uint16 (Z.of_nat (length answers))) (m_header skel);
            m_question := m_question skel; m_answer := answers;
            m_authority := m_authority skel; m_additional := m_additional skel |}).
  assert (Hresp : addStaticAnswer skel = Ok response).
  { unfold addStaticAnswer. rewrite Hqd, Nat2Z.id, staticAnswers_map by lia.
    cbn [mbind outcome_bind obind drop]. rewrite Han, firstn_all. reflexivity. }
  assert (Hla : length answers = length (m_question skel)).
  { unfold answers. by rewrite length_fmap. }
  destruct (setANCOUNT_counts (length answers) (m_header skel)) as (HA & HQ & _ & _); [lia|].
  assert (Hnames : Forall (λ q, valid_name (QNAME q)) (m_question skel)).
  { rewrite Hqs. apply Forall_fmap. eapply Forall_impl; [exact Hvalid|]. done. }
  assert (Hv : valid_message response).
  { split; [exact Hnames|]. split.
    { unfold response, answers. cbn [m_answer]. apply Forall_fmap.
      eapply Forall_impl; [exact Hnames|]. intros q Hq. by apply static_answer_valid. }
    unfold response. cbn [m_header m_question m_answer m_authority m_additional].
    rewrite HA, HQ, Hqd, Hla. by repeat split. }
  destruct (deserialize_layout response sp Hv) as (cache & Hback).
  eexists. eexists. split; [|split; [exact Hback|]].
  - unfold handleDatagram, buildResponse. rewrite Hdec. cbn [mbind outcome_bind obind].
    rewrite Hskel. cbn [h_response]. rewrite Hresp. cbn [mbind outcome_bind obind].
    apply serialize_valid; [exact Hnames|].
    unfold response, answers. cbn [m_answer]. apply Forall_fmap.
    eapply Forall_impl; [exact Hnames|]. done.
  - cbn [m_header m_question m_answer]. unfold response. cbn [m_header m_question m_answer].
    split; [|split; [|split; [|split]]].
    + unfold id, setANCOUNT. rewrite get16_put16_ne by done. exact Hid.
    + unfold QR, setANCOUNT. rewrite put16_lookup_ne by done. exact Hqr.
    + unfold RCODE, setANCOUNT. rewrite put16_lookup_ne by done. exact Hrc.
    + exact Hqs.
    + unfold answers. rewrite Hqs, <- list_fmap_compose. reflexivity.
Qed.
End StaticTurn.

(** ** Forwarding: failures, the transaction id, the response *)

Section ForwardMore.
Implicit Types (net : upstream) (q : question) (n : nat).

(** The questions that go through, then the rest of the loop. *)
Lemma forwardResolve_loop_app net qs1 qs2 n answers sent (replies : list message) :
  Forall (λ q, encodable (QNAME q)) qs1 →
  length replies = length qs1 →
  (∀ i r, replies !! i = Some r →
     ∃ d, exchanges net (n + i) = Reply d ∧ deserialize (readFrame fresh_buf d) = Ok r) →
  forwardResolve_loop net (qs1 ++ qs2) n answers sent
  = forwardResolve_loop net qs2 (n + length qs1)
      (answers ++ concat (m_answer <$> replies))
      (sent ++ imap (λ i q, query_datagram (draws net (n + i)) q) qs1).
Proof.
  revert n answers sent replies.
  induction qs1 as [|q qs1 IH]; intros n answers sent replies Henc Hlen Hex.
  - destruct replies; [|done]. simpl. rewrite !app_nil_r. f_equal. lia.
  - destruct replies as [|r replies]; [done|].
    apply Forall_cons in Henc as [Hq Henc].
    cbn [forwardResolve_loop app]. rewrite (upstreamQuery_serialize _ _ Hq).
    destruct (Hex 0 r eq_refl) as (d & Hd & Hr). rewrite Nat.add_0_r in Hd.
    rewrite Hd, Hr.
    rewrite (IH (S n) _ _ replies Henc).
    + f_equal.
      * simpl. lia.
      * rewrite fmap_cons. simpl. by rewrite <- app_assoc.
      * rewrite imap_cons, <- app_assoc. simpl. rewrite Nat.add_0_r. do 2 f_equal.
        apply imap_ext. intros i x _. simpl. do 2 f_equal. lia.
    + simpl in Hlen. lia.
    + intros i r' Hi. destruct (Hex (S i) r' Hi) as (d' & Hd' & Hr').
      exists d'. split; [|done]. rewrite <- Hd'. f_equal. lia.
Qed.

Lemma upstreamQuery_serialize_Err draw q e :
  encodeLabelSequence (QNAME q) = Err e → serialize (upstreamQuery draw q) = Err e.
Proof.
  intros He. unfold serialize.
  cbn [m_question m_answer upstreamQuery serializeQuestions]. by rewrite He.
Qed.

(** X21. [forwardResolve] stops at the first question that fails and
    looks at no later one.  After questions that went through: a name
    the encoder refuses returns the encoder's error with nothing written
    for it; a failed write returns the send error; a failed read returns
    the read error after the datagram was written; a reply that
    [deserialize] refuses returns the parse error, whatever the error
    was; and a reply on which [deserialize] panics makes it panic. *)
Theorem forwardResolve_first_failure (net : upstream) (passed : list question)
    (q : question) (later : list question) (n : nat) (replies : list message) :
  Forall (λ q, encodable (QNAME q)) passed →
  length replies = length passed →
  (∀ i r, replies !! i = Some r →
     ∃ d, exchanges net (n + i) = Reply d ∧ deserialize (readFrame fresh_buf d) = Ok r) →
  let f := forwardResolve net (passed ++ q :: later) n in
  let stopped := f_next f = n + length passed + 1 in
  (∀ e, encodeLabelSequence (QNAME q) = Err e →
     f_result f = Err e ∧ length (f_sent f) = length passed ∧ stopped)
  ∧ (encodable (QNAME q) → exchanges net (n + length passed) = WriteFails →
       f_result f = Err SendFailed ∧ length (f_sent f) = length passed ∧ stopped)
  ∧ (encodable (QNAME q) → exchanges net (n + length passed) = ReadFails →
       f_result f = Err ReadFailed ∧ length (f_sent f) = length passed + 1 ∧ stopped)
  ∧ (encodable (QNAME q) → ∀ d e,
       exchanges net (n + length passed) = Reply d →
       deserialize (readFrame fresh_buf d) = Err e →
       f_result f = Err ParseFailed ∧ length (f_sent f) = length passed + 1 ∧ stopped)
  ∧ (encodable (QNAME q) → ∀ d p,
       exchanges net (n + length passed) = Reply d →
       deserialize (readFrame fresh_buf d) = Panic p →
       f_result f = Panic p ∧ length (f_sent f) = length passed + 1 ∧ stopped).
Proof.
  intros Henc Hlen Hex f stopped. unfold stopped, f, forwardResolve.
  rewrite (forwardResolve_loop_app net passed (q :: later) n [] [] replies Henc Hlen Hex).
  cbn [forwardResolve_loop app]. set (k := n + length passed).
  assert (Hsent : ∀ extra,
            length (imap (λ i q, query_datagram (draws net (n + i)) q) passed ++ extra)
            = length passed + length extra).
  { intros extra. by rewrite length_app, length_imap. }
  split; [|split; [|split; [|split]]].
  - intros e He. rewrite (upstreamQuery_serialize_Err _ _ _ He). cbn [f_result f_sent f_next].
    rewrite length_imap. split; [done|]. split; [done|lia].
  - intros Hq Hx. rewrite (upstreamQuery_serialize _ _ Hq), Hx. cbn [f_result f_sent f_next].
    rewrite length_imap. split; [done|]. split; [done|lia].
  - intros Hq Hx. rewrite (upstreamQuery_serialize _ _ Hq), Hx. cbn [f_result f_sent f_next].
    rewrite Hsent. split; [done|]. split; [done|lia].
  - intros Hq d e Hx Hd. rewrite (upstreamQuery_serialize _ _ Hq), Hx, Hd.
    cbn [f_result f_sent f_next]. rewrite Hsent. split; [done|]. split; [done|lia].
  - intros Hq d p Hx Hd. rewrite (upstreamQuery_serialize _ _ Hq), Hx, Hd.
    cbn [f_result f_sent f_next]. rewrite Hsent. split; [done|]. split; [done|lia].
Qed.

(** X22. The transaction id of a query to the resolver is the draw
    reduced modulo 65535: it lies between 0 and 65534, and 65535 is
    never used.  The rest of the header is fixed: OPCODE 0 and the flags
    AA, TC, RA, Z and RCODE all zero. *)
Theorem upstreamQuery_id (draw : Z) (q : question) :
  id (m_header (upstreamQuery draw q)) = (draw `mod` 65535)%Z
  ∧ (0 ≤ id (m_header (upstreamQuery draw q)) < 65535)%Z
  ∧ OPCODE (m_header (upstreamQuery draw q)) = 0%Z
  ∧ AA (m_header (upstreamQuery draw q)) = 0%Z
  ∧ TC (m_header (upstreamQuery draw q)) = 0%Z
  ∧ RA (m_header (upstreamQuery draw q)) = 0%Z
  ∧ Zbits (m_header (upstreamQuery draw q)) = 0%Z
  ∧ RCODE (m_header (upstreamQuery draw q)) = 0%Z.
Proof.
  assert (Hid : id (m_header (upstreamQuery draw q)) = (draw `mod` 65535)%Z).
  { unfold upstreamQuery. cbn [m_header].
    unfold id, setQDCOUNT, setZ, setRD, setRA, setTC, setAA, setQR, setId.
    rewrite get16_put16_ne by done. unfold get16.
    rewrite !vlookup_insert_ne by done.
    fold (get16 0 1 (put16 0 1 (uint16 (IntN draw MaxUint16)) new_header)).
    rewrite get16_put16_same by done.
    unfold uint16, IntN, MaxUint16. rewrite Z.mod_mod by lia.
    apply Z.mod_small. pose proof (Z.mod_pos_bound draw 65535 ltac:(lia)). lia. }
  split; [exact Hid|]. split.
  { rewrite Hid. apply Z.mod_pos_bound. lia. }
  by repeat split.
Qed.
End ForwardMore.

Section ForwardTurn.

(** X23. In forwarding mode, for a frame of at most 512 bytes that
    decodes to a request whose question names the encoder accepts, when
    every exchange with the resolver succeeds: one datagram per question
    is written, and the response about to be serialized has the request's
    transaction id (not one of the replies'), the request's question
    names with type A and class IN, the answers of the decoded replies
    one after the other as they are, whatever ids the replies carry, and
    ANCOUNT set to their number. *)
Theorem forwarding_turn_relays (net : upstream) (frame : slice) (request : message)
    (n : nat) (replies : list message) :
  slen frame ≤ 512 →
  deserialize frame = Ok request →
  Forall (λ q, encodable (QNAME q)) (m_question request) →
  length replies = length (m_question request) →
  (∀ i r, replies !! i = Some r →
     ∃ d, exchanges net (n + i) = Reply d ∧ deserialize (readFrame fresh_buf d) = Ok r) →
  ∃ response,
    h_response (buildResponse (Some net) frame n) = Ok response
    ∧ m_answer response = concat (m_answer <$> replies)
    ∧ ANCOUNT (m_header response) = Z.of_nat (length (concat (m_answer <$> replies)))
    ∧ id (m_header response) = id (m_header request)
    ∧ m_question response = (λ q, question_of (QNAME q)) <$> m_question request
    ∧ length (h_sent (buildResponse (Some net) frame n)) = length (m_question request)
    ∧ h_next (buildResponse (Some net) frame n) = n + length (m_question request).
Proof.
  intros Hlen Hdec Henc Hreplies Hex.
  destruct (createResponseMessage_decoded _ _ Hlen Hdec)
    as (skel & Hskel & Hqd & Hnq & Han & Hau & Had & _ & _).
  assert (Hqs : m_question skel = (λ q, question_of (QNAME q)) <$> m_question request).
  { destruct (deserialize_counts _ _ Hdec) as [Hq _].
    revert Hskel. unfold createResponseMessage. rewrite copyQuestions_map by lia.
    cbn [mbind outcome_bind obind app drop]. intros [= <-]. cbn [m_question].
    rewrite <- Hq. by rewrite firstn_all. }
  assert (Hid : id (m_header skel) = id (m_header request)).
  { revert Hskel. unfold createResponseMessage. intros H. bind_inv H. injection H as <-.
    cbn [m_header]. unfold id, setQDCOUNT. rewrite get16_put16_ne by done.
    unfold get16. by rewrite !responseHeader_other by done. }
  assert (Henc' : Forall (λ q, encodable (QNAME q)) (m_question skel)).
  { rewrite Hqs. apply Forall_fmap. eapply Forall_impl; [exact Henc|]. done. }
  assert (Hlq : length (m_question skel) = length (m_question request)).
  { by rewrite Hqs, length_fmap. }
  pose proof (forwardResolve_loop_Ok net (m_question skel) n [] [] replies Henc'
                ltac:(lia) Hex) as Hrun.
  assert (Hbound : length (concat (m_answer <$> replies)) ≤ 46 * length (m_question skel)).
  { pose proof (forwardResolve_loop_answers net (m_question skel) n [] []
                  (concat (m_answer <$> replies))) as Hb.
    rewrite Hrun in Hb. specialize (Hb eq_refl). simpl in Hb. lia. }
  unfold buildResponse. rewrite Hdec. cbn [mbind outcome_bind obind]. rewrite Hskel.
  unfold forwardResolve. rewrite Hrun.
  cbn [h_response h_sent h_next f_result f_sent f_next mbind outcome_bind obind app].
  eexists. split; [reflexivity|]. cbn [m_answer m_header m_question].
  destruct (setANCOUNT_counts (length (concat (m_answer <$> replies))) (m_header skel))
    as (HA & _ & _ & _); [lia|].
  split; [done|]. split; [exact HA|]. split.
  { unfold id, setANCOUNT. rewrite get16_put16_ne by done. exact Hid. }
  split; [exact Hqs|]. split; [by rewrite length_imap|lia].
Qed.
End ForwardTurn.

(** ** The log of the loop *)

Section ServeLog.



(** X25. A datagram of fewer than 12 bytes costs the server nothing but
    a log line: in any mode the turn ends with the malformed-header
    error, nothing is sent to the resolver, and the loop goes on with the
    next datagram. *)
Theorem serve_short_datagram (resolverConn : option upstream) (d : list byte)
    (arrivals : list (list byte)) (buf : list byte) (n : nat) :
  length d < 12 →
  12 ≤ length buf →
  serve resolverConn (d :: arrivals) buf n
  = Logged MalformedHeader :: serve resolverConn arrivals (d ++ drop (length d) buf) n
    ∧ h_sent (buildResponse resolverConn (readFrame buf d) n) = [].
Proof.
  intros Hd Hbuf.
  assert (Hframe : readFrame buf d = Slice d (drop (length d) buf)).
  { unfold readFrame. rewrite take_ge by lia. reflexivity. }
  assert (Hdec : deserialize (readFrame buf d) = Err MalformedHeader).
  { apply deserialize_short. rewrite Hframe. unfold slen. simpl. lia. }
  cbn [serve]. unfold buildResponse. rewrite Hdec.
  cbn [mbind outcome_bind obind h_response h_next h_sent].
  by rewrite Hframe.
Qed.
End ServeLog.

(** ** The further theorems at sample inputs *)

Lemma createResponseMessage_echo_witness :
  ∃ response,
    createResponseMessage google_reply_message = Ok response
    ∧ id (m_header response) = id (m_header google_reply_message)
    ∧ OPCODE (m_header response) = OPCODE (m_header google_reply_message)
    ∧ RD (m_header response) = RD (m_header google_reply_message).
Proof.
  eexists. split; [vm_compute; reflexivity|].
  apply (createResponseMessage_echo google_reply_message). vm_compute; reflexivity.
Defined.

Lemma serialize_capacity_below_witness :
  ∃ bytes,
    serialize google_reply_message = Ok bytes
    ∧ serialize_capacity google_reply_message ≤ length bytes
    ∧ (serialize_capacity google_reply_message = length bytes
       ↔ m_question google_reply_message = [] ∧ m_answer google_reply_message = []).
Proof.
  eexists. split; [vm_compute; reflexivity|].
  apply (serialize_capacity_below google_reply_message). vm_compute; reflexivity.
Defined.

Lemma deserialize_shape_witness :
  ∃ m,
    deserialize (Slice google_query []) = Ok m
    ∧ vec_to_list (m_header m) = take 12 (elems (Slice google_query []))
    ∧ Z.of_nat (length (m_question m)) = Z.max 0 (QDCOUNT (m_header m))
    ∧ Z.of_nat (length (m_answer m)) = Z.max 0 (ANCOUNT (m_header m))
    ∧ m_authority m = [] ∧ m_additional m = []
    ∧ is_Some (m_cache m).
Proof.
  eexists. split; [vm_compute; reflexivity|].
  apply (deserialize_shape (Slice google_query [])). vm_compute; reflexivity.
Defined.

Lemma deserialize_entries_fit_witness :
  ∃ m,
    deserialize (Slice google_reply []) = Ok m
    ∧ 12 + 5 * length (m_question m) + 11 * length (m_answer m)
      ≤ slen (Slice google_reply []).
Proof.
  eexists. split; [vm_compute; reflexivity|].
  apply (deserialize_entries_fit (Slice google_reply [])). vm_compute; reflexivity.
Defined.

Lemma decodeLabels_encodeLabelSequence_witness :
  encodeLabelSequence [google; com] = Ok (wire_name [google; com])
  ∧ decodeLabels (Slice google_query []) 12 emptyCache
    = Ok ([google; com], 12 + length (wire_name [google; com]),
          record_name emptyCache 12 [google; com]).
Proof.
  split; [vm_compute; reflexivity|].
  apply (decodeLabels_encodeLabelSequence [google; com] (wire_name [google; com])
           (Slice google_query []) 12 emptyCache [0; 1; 0; 1]%Z).
  - vm_compute; reflexivity.
  - apply Forall_cons. split; [done|]. apply Forall_cons. split; [done|apply Forall_nil_2].
  - exists (vec_to_list query_header). split; reflexivity.
Defined.

Lemma decodeLabels_stops_at_empty_label_witness :
  encodeLabelSequence ([google] ++ [] :: [com])
  = Ok (wire_name [google] ++ wire_name [com])
  ∧ decodeLabels (Slice (wire_name [google] ++ wire_name [com]) []) 0 emptyCache
    = Ok ([google], 0 + length (wire_name [google]), record_name emptyCache 0 [google]).
Proof.
  split; [vm_compute; reflexivity|].
  apply (decodeLabels_stops_at_empty_label [google] [com]
           (wire_name [google] ++ wire_name [com])
           (Slice (wire_name [google] ++ wire_name [com]) []) 0 emptyCache []).
  - vm_compute; reflexivity.
  - apply Forall_cons. split; [done|apply Forall_nil_2].
  - exists []. split; [|reflexivity]. cbn [elems]. by rewrite app_nil_r.
Defined.

Lemma deserialize_compressed_name_witness :
  ∃ m,
    deserialize
      (Slice (vec_to_list ([# 0x12; 0x34; 1; 0; 0; 2; 0; 0; 0; 0; 0; 0]%Z : header)
                ++ wire_name [google; com] ++ vec_to_list (PutUint16 A)
                ++ vec_to_list (PutUint16 IN)
                ++ flat_map wire_label [[119; 119; 119]%Z]
                ++ [192%Z; Z.of_nat (12 + length (flat_map wire_label
                                                    (take 0 [google; com])))]
                ++ vec_to_list (PutUint16 A) ++ vec_to_list (PutUint16 IN)) []) = Ok m
    ∧ m_header m = ([# 0x12; 0x34; 1; 0; 0; 2; 0; 0; 0; 0; 0; 0]%Z : header)
    ∧ m_question m
      = [Question [google; com] (PutUint16 A) (PutUint16 IN);
         Question ([[119; 119; 119]%Z] ++ drop 0 [google; com]) (PutUint16 A) (PutUint16 IN)]
    ∧ m_answer m = [].
Proof.
  apply (deserialize_compressed_name ([# 0x12; 0x34; 1; 0; 0; 2; 0; 0; 0; 0; 0; 0]%Z)
           [google; com] [[119; 119; 119]%Z] 0 (PutUint16 A) (PutUint16 IN)
           (PutUint16 A) (PutUint16 IN) []).
  - reflexivity.
  - reflexivity.
  - apply Forall_cons. split; [split; vm_compute; lia|].
    apply Forall_cons. split; [split; vm_compute; lia|apply Forall_nil_2].
  - apply Forall_cons. split; [split; vm_compute; lia|apply Forall_nil_2].
  - vm_compute; lia.
  - vm_compute; lia.
Defined.

Lemma decodeLabels_at_pointer_witness :
  index (Slice two_question_query []) 32 = Ok 192%Z
  ∧ index (Slice two_question_query []) (32 + 1) = Ok 12%Z
  ∧ ∃ refs, chain google_cache (Z.to_nat 12) (google :: refs)
            ∧ decodeLabels_loop (S 4) (Slice two_question_query []) 32 google_cache
                [[119; 119; 119]%Z]
              = Ok ([[119; 119; 119]%Z] ++ google :: refs, 32 + 2, google_cache).
Proof.
  split; [reflexivity|]. split; [reflexivity|].
  apply (proj2 (decodeLabels_at_pointer 4 (Slice two_question_query []) 32 google_cache
                  [[119; 119; 119]%Z] 12%Z eq_refl eq_refl) google).
  vm_compute; reflexivity.
Defined.

Lemma deserialize_leading_pointer_witness :
  (1 ≤ QDCOUNT query_header)%Z
  ∧ deserialize (Slice (vec_to_list query_header ++ 192%Z :: 12%Z :: [0; 1; 0; 1]%Z) [])
    = Err (InvalidLabelReference 12%Z).
Proof.
  assert (H : (1 ≤ QDCOUNT query_header)%Z) by (vm_compute; discriminate).
  split; [exact H|].
  exact (deserialize_leading_pointer query_header 12%Z [0; 1; 0; 1]%Z [] H).
Defined.

Lemma deserialize_label_sizes_witness :
  ∃ m,
    deserialize (Slice google_reply []) = Ok m
    ∧ Forall (λ q, Forall sized_label (QNAME q)) (m_question m)
    ∧ Forall (λ a, Forall sized_label (NAME a)) (m_answer m).
Proof.
  eexists. split; [vm_compute; reflexivity|].
  apply (deserialize_label_sizes (Slice google_reply [])); [bytes_ok|].
  vm_compute; reflexivity.
Defined.

Lemma static_turn_replies_witness :
  ∃ request bytes reply,
    deserialize (readFrame fresh_buf google_query) = Ok request
    ∧ handleDatagram None (readFrame fresh_buf google_query) 0 = Ok bytes
    ∧ deserialize (Slice bytes []) = Ok reply
    ∧ id (m_header reply) = id (m_header request)
    ∧ QR (m_header reply) = 1%Z
    ∧ RCODE (m_header reply)
      = (if decide (OPCODE (m_header request) = QUERY) then 0 else 4)%Z
    ∧ m_question reply = (λ q, question_of (QNAME q)) <$> m_question request
    ∧ m_answer reply = (λ q, static_answer (QNAME q)) <$> m_question request.
Proof.
  eexists. 
  assert (Hn : valid_name [google; com]).
  { split; [|vm_compute; lia].
    apply Forall_cons. split; [vm_compute; lia|].
    apply Forall_cons. split; [vm_compute; lia|apply Forall_nil_2]. }
  match goal with |- ∃ bytes reply, ?D ∧ _ =>
    assert (Hdec : D) by (vm_compute; reflexivity) end.
  destruct (static_turn_replies (readFrame fresh_buf google_query) _ 0 []
              (readFrame_slen _ _) Hdec) as (bytes & reply & H).
  { apply Forall_cons. split; [exact Hn|apply Forall_nil_2]. }
  exists bytes, reply. split; [exact Hdec|exact H].
Defined.

Lemma forwardResolve_first_failure_witness :
  encodable (QNAME (question_of [google; com]))
  ∧ exchanges deaf (0 + length (@nil question)) = ReadFails
  ∧ f_result (forwardResolve deaf ([] ++ question_of [google; com] :: [question_of [com]]) 0)
    = Err ReadFailed
  ∧ length (f_sent (forwardResolve deaf
                      ([] ++ question_of [google; com] :: [question_of [com]]) 0))
    = length (@nil question) + 1
  ∧ f_next (forwardResolve deaf ([] ++ question_of [google; com] :: [question_of [com]]) 0)
    = 0 + length (@nil question) + 1.
Proof.
  assert (He : encodable (QNAME (question_of [google; com]))).
  { split; [|vm_compute; lia].
    apply Forall_cons. split; [vm_compute; lia|].
    apply Forall_cons. split; [vm_compute; lia|apply Forall_nil_2]. }
  split; [exact He|]. split; [reflexivity|].
  assert (Hex : ∀ i r, (@nil message) !! i = Some r →
            ∃ d, exchanges deaf (0 + i) = Reply d
                 ∧ deserialize (readFrame fresh_buf d) = Ok r).
  { intros i r Hi. destruct i; discriminate Hi. }
  exact (proj1 (proj2 (proj2 (forwardResolve_first_failure deaf [] (question_of [google; com])
           [question_of [com]] 0 [] (Forall_nil_2 _) eq_refl Hex))) He eq_refl).
Defined.

Lemma forwarding_turn_relays_witness :
  ∃ request r response,
    deserialize (readFrame fresh_buf google_query) = Ok request
    ∧ deserialize (readFrame fresh_buf google_reply) = Ok r
    ∧ h_response (buildResponse (Some (replying google_reply))
                    (readFrame fresh_buf google_query) 0) = Ok response
    ∧ m_answer response = concat (m_answer <$> [r])
    ∧ ANCOUNT (m_header response) = Z.of_nat (length (concat (m_answer <$> [r])))
    ∧ id (m_header response) = id (m_header request).
Proof.
  eexists. eexists.
  match goal with |- ∃ response, ?D ∧ ?R ∧ _ =>
    assert (Hdec : D) by (vm_compute; reflexivity);
    assert (Hrep : R) by (vm_compute; reflexivity) end.
  match type of Hrep with _ = Ok ?r => set (reply := r) in * end.
  destruct (forwarding_turn_relays (replying google_reply)
              (readFrame fresh_buf google_query) _ 0 [reply] (readFrame_slen _ _) Hdec)
    as (response & Hresp & Hans & Han & Hid & _).
  { apply Forall_cons. split; [|apply Forall_nil_2].
    split; [|vm_compute; lia].
    apply Forall_cons. split; [vm_compute; lia|].
    apply Forall_cons. split; [vm_compute; lia|apply Forall_nil_2]. }
  { reflexivity. }
  { intros i r' Hi. exists google_reply. split; [reflexivity|].
    destruct i as [|i]; simpl in Hi; [|discriminate Hi]. injection Hi as <-. exact Hrep. }
  exists response. split; [exact Hdec|]. split; [exact Hrep|].
  split; [exact Hresp|]. split; [exact Hans|]. split; [exact Han|exact Hid].
Defined.

Lemma serve_short_datagram_witness :
  length [1; 2; 3]%Z < 12
  ∧ 12 ≤ length fresh_buf
  ∧ serve None ([1; 2; 3]%Z :: [google_query]) fresh_buf 0
    = Logged MalformedHeader
        :: serve None [google_query] ([1; 2; 3]%Z ++ drop (length [1; 2; 3]%Z) fresh_buf) 0
  ∧ h_sent (buildResponse None (readFrame fresh_buf [1; 2; 3]%Z) 0) = [].
Proof.
  assert (H1 : length [1; 2; 3]%Z < 12) by (vm_compute; lia).
  assert (H2 : 12 ≤ length fresh_buf) by (vm_compute; lia).
  split; [exact H1|]. split; [exact H2|].
  exact (serve_short_datagram None [1; 2; 3]%Z [google_query] fresh_buf 0 H1 H2).
Defined.
